(** * Recipe recorder and runner: step reduction, placeholders, selector
      synthesis, store update and replay.

    Shallow embedding of [recorder.py] and [runner.py].  Python values are
    embedded as [pyval], JSON objects used as steps as [gmap string pyval],
    the insertion-ordered dictionaries that the deduplication passes iterate
    over as association lists, exceptions as the [Raise] branch of [result]. *)

From Stdlib Require Import Ascii QArith Qabs.
From stdpp Require Import base option list gmap strings countable pretty.

Local Open Scope string_scope.
Local Open Scope list_scope.

(** ** Python values and exceptions *)

(** The scalar values a step can hold after crossing the browser binding or
    the JSON file: [None]/null, integers and strings. *)
Inductive pyval :=
  | PNone
  | PInt (z : Z)
  | PStr (s : string).

#[global] Instance pyval_eq_dec : EqDecision pyval.
Proof. solve_decision. Defined.

#[global] Instance pyval_countable : Countable pyval.
Proof.
  refine (inj_countable'
    (λ v, match v with
          | PNone => inl ()
          | PInt z => inr (inl z)
          | PStr s => inr (inr s)
          end)
    (λ x, match x with
          | inl _ => PNone
          | inr (inl z) => PInt z
          | inr (inr s) => PStr s
          end) _).
  by intros [].
Defined.

Inductive exn :=
  | KeyError (key : string)
  | TypeError
  | AttributeError
  | JSONDecodeError
  | OSError
  | SyntaxError
  | OverflowError
  | UnicodeDecodeError
  | MarkupError
  | DriverError (msg : string).

#[global] Instance exn_eq_dec : EqDecision exn.
Proof. solve_decision. Defined.

Inductive result (A : Type) :=
  | Ok (a : A)
  | Raise (e : exn).
Arguments Ok {A} a.
Arguments Raise {A} e.

#[global] Instance result_ret : MRet result := λ A a, Ok a.
#[global] Instance result_bind : MBind result := λ A B f m,
  match m with
  | Ok a => f a
  | Raise e => Raise e
  end.

(** [for x in l: st = body(st, x)], stopping at the first exception. *)
Fixpoint for_each {S A : Type} (body : S → A → result S) (l : list A) (st : S)
  : result S :=
  match l with
  | [] => Ok st
  | x :: l' => st' ← body st x; for_each body l' st'
  end.

(** ** Steps and insertion-ordered dictionaries *)

(** A step is the dict built in [_add_step]:
    [{"action": ..., "timestamp": ..., **data}]. *)
Abbreviation step := (gmap string pyval).

(** [d[k]], raising [KeyError] when the key is missing. *)
Definition getitem (d : step) (k : string) : result pyval :=
  match d !! k with
  | Some v => Ok v
  | None => Raise (KeyError k)
  end.

(** A Python [dict] keyed by selector.  Iteration follows insertion order and
    assigning to a key that is already present keeps its position. *)
Definition odict (V : Type) := list (pyval * V).

Fixpoint dict_set {V : Type} (d : odict V) (k : pyval) (v : V) : odict V :=
  match d with
  | [] => [(k, v)]
  | (k', v') :: d' =>
      if decide (k' = k) then (k', v) :: d' else (k', v') :: dict_set d' k v
  end.

Definition dict_values {V : Type} (d : odict V) : list V := d.*2.
Definition dict_keys {V : Type} (d : odict V) : list pyval := d.*1.

Fixpoint dict_get {V : Type} (d : odict V) (k : pyval) : option V :=
  match d with
  | [] => None
  | (k', v') :: d' => if decide (k' = k) then Some v' else dict_get d' k
  end.

(** ** Batch pass: [RecipeRecorder._collapse_fills] *)

Definition collapse_body (st : list step * odict step) (s : step)
  : result (list step * odict step) :=
  let '(collapsed, last_fills) := st in
  action ← getitem s "action";
  if decide (action = PStr "fill") then
    selector ← getitem s "selector";
    mret (collapsed, dict_set last_fills selector s)
  else
    mret ((collapsed ++ dict_values last_fills) ++ [s], []).

Definition collapse_loop (steps : list step) (st : list step * odict step)
  : result (list step * odict step) :=
  for_each collapse_body steps st.

Definition _collapse_fills (steps : list step) : result (list step) :=
  '(collapsed, last_fills) ← collapse_loop steps ([], []);
  mret (collapsed ++ dict_values last_fills).

(** ** Live pass: [RecipeRecorder._add_step] and the flush of [_save_recipe] *)

Record recorder := Recorder {
  steps : list step;
  _last_fill_for_selector : odict step;
}.

Definition recorder_init : recorder := Recorder [] [].

(** [{"action": action, "timestamp": now, **data}]: keys of [data] win. *)
Definition make_step (now : string) (action : string) (data : step) : step :=
  data ∪ <["action" := PStr action]> (<["timestamp" := PStr now]> ∅).

(** The lines that the recorder hands to [console.print] while it records,
    by the values formatted into them:
    ["[blue]📝 Updated fill: {selector} → {data['value']}[/blue]"],
    ["[blue]📝 Recorded: {action} - {data}[/blue]"] and
    ["[magenta]🛑 Added prompt step: {message}[/magenta]"]. *)
Inductive console_line :=
  | UpdatedFill (selector value : pyval)
  | Recorded (action : string) (data : step)
  | AddedPrompt (message : string).

(** The first lines of [_save_recipe]: flush any remaining fills. *)
Definition flush_pending (self : recorder) : recorder :=
  Recorder (steps self ++ dict_values (_last_fill_for_selector self)) [].

(** The captured events, one constructor per place that calls [_add_step]:
    the exposed [recordClick] and [recordInput] bindings and the navigation
    listener, which the driver calls, and the start URL and the [:prompt]
    console command, which [start_recording] records itself. *)
Inductive event :=
  | RecordClick (selector text : pyval)
  | RecordInput (selector value : pyval)
  | Navigated (url : pyval)
  | PromptCommand (message : string)
  | StartUrl (start_url : string).

Definition event_action (ev : event) : string :=
  match ev with
  | RecordClick _ _ => "click"
  | RecordInput _ _ => "fill"
  | Navigated _ => "navigate"
  | PromptCommand _ => "prompt"
  | StartUrl _ => "navigate"
  end.

Definition event_data (ev : event) : step :=
  match ev with
  | RecordClick selector text => <["selector" := selector]> (<["text" := text]> ∅)
  | RecordInput selector value => <["selector" := selector]> (<["value" := value]> ∅)
  | Navigated url => <["url" := url]> ∅
  | PromptCommand message => <["message" := PStr message]> ∅
  | StartUrl start_url => <["url" := PStr start_url]> ∅
  end.

(** A raw event stream: each event with the clock reading taken for it. *)
Definition stream := list (string * event).

(** The raw stream as steps, nothing deduplicated. *)
Definition raw_steps (evs : stream) : list step :=
  (λ tev, make_step tev.1 (event_action tev.2) (event_data tev.2)) <$> evs.

(** The lines printed while an event is recorded: the line of [_add_step],
    and for a prompt command the line that the console loop prints after
    it. *)
Definition event_lines (ev : event) : list console_line :=
  match ev with
  | RecordInput selector value => [UpdatedFill selector value]
  | PromptCommand message =>
      [Recorded "prompt" (event_data ev); AddedPrompt message]
  | _ => [Recorded (event_action ev) (event_data ev)]
  end.

Section Recording.
(** What [console.print] does with a line: [None] when it prints it, the
    exception otherwise.  The console parses the text as markup, and raises
    [MarkupError] on a text such as ["[/b]"], a closing tag that closes
    nothing. *)
Variable console_print : console_line → option exn.
(** An exception that leaves [_add_step] inside a callback of the driver
    (the [recordClick] and [recordInput] bindings, the navigation listener)
    is handed to the driver: [true] when the recording goes on after it. *)
Variable callback_survives : string * event → exn → bool.

(** The recorder after the call and the exception that the call raises, if
    any: the recorder is updated before the line is printed. *)
Definition _add_step (now : string) (action : string) (data : step)
    (self : recorder) : recorder * option exn :=
  let step := make_step now action data in
  if decide (action = "fill") then
    match data !! "selector" with
    | None => (self, Some (KeyError "selector"))
    | Some selector =>
        let self' :=
          Recorder (steps self)
            (dict_set (_last_fill_for_selector self) selector step) in
        match data !! "value" with
        | None => (self', Some (KeyError "value"))
        | Some value => (self', console_print (UpdatedFill selector value))
        end
    end
  else
    (Recorder
       ((steps self ++ dict_values (_last_fill_for_selector self)) ++ [step])
       [],
     console_print (Recorded action data)).

(** The recorder after the calls made for the events of a stream, whatever
    became of their lines. *)
Definition feed (evs : stream) (self : recorder) : recorder :=
  foldl (λ self tev,
           (_add_step tev.1 (event_action tev.2) (event_data tev.2) self).1)
        self evs.

(** One event of a recording that goes on to its end.  The start URL and
    a prompt command are recorded by [start_recording] itself, and an
    exception raised there, by [_add_step] or by the line printed after a
    prompt, ends the recording before anything is saved; so does an
    exception in a callback that the driver does not survive. *)
Definition on_event (self : recorder) (tev : string * event) : result recorder :=
  let '(self', raised) :=
    _add_step tev.1 (event_action tev.2) (event_data tev.2) self in
  match tev.2 with
  | PromptCommand message =>
      match raised with
      | Some e => Raise e
      | None =>
          match console_print (AddedPrompt message) with
          | Some e => Raise e
          | None => Ok self'
          end
      end
  | StartUrl _ =>
      match raised with
      | Some e => Raise e
      | None => Ok self'
      end
  | _ =>
      match raised with
      | Some e => if callback_survives tev e then Ok self' else Raise e
      | None => Ok self'
      end
  end.

(** [self.steps] as [_save_recipe] sees it after its flush. *)
Definition live_pass (evs : stream) : result (list step) :=
  self ← for_each on_event evs recorder_init;
  mret (steps (flush_pending self)).

(** [collapsed_steps] of [_save_recipe]. *)
Definition recorded_steps (evs : stream) : result (list step) :=
  live_pass evs ≫= _collapse_fills.
End Recording.

(** A console on which every line prints. *)
Definition quiet_console (line : console_line) : option exn := None.

(** A console that rejects the lines carrying the text ["[/b]"] as click
    text or as prompt message. *)
Definition strict_console (line : console_line) : option exn :=
  match line with
  | Recorded _ data =>
      if decide (data !! "text" = Some (PStr "[/b]")
                 ∨ data !! "message" = Some (PStr "[/b]"))
      then Some MarkupError else None
  | AddedPrompt message =>
      if decide (message = "[/b]") then Some MarkupError else None
  | UpdatedFill _ _ => None
  end.

(** A driver that ends the recording on every exception of a callback, and
    one that goes on after each. *)
Definition fatal_callbacks (tev : string * event) (e : exn) : bool := false.
Definition lenient_callbacks (tev : string * event) (e : exn) : bool := true.

(** No line of the stream makes the console raise. *)
Definition prints_all (console_print : console_line → option exn)
    (evs : stream) : Prop :=
  ∀ tev line, tev ∈ evs → line ∈ event_lines tev.2 → console_print line = None.

(** ** Placeholders: [RecipeRecorder._extract_placeholders] *)

(** The greedy [[^}]+] of the pattern: the longest prefix without a closing
    brace, and what follows it. *)
Fixpoint span_token (s : string) : string * string :=
  match s with
  | EmptyString => (EmptyString, EmptyString)
  | String c s' =>
      if decide (c = "}"%char) then (EmptyString, s)
      else let '(tok, rest) := span_token s' in (String c tok, rest)
  end.

(** One match of [\{([^}]+)\}] anchored at the start of [s]: the captured
    group and the text after the match. *)
Definition match_here (s : string) : option (string * string) :=
  match s with
  | String c s' =>
      if decide (c = "{"%char) then
        match span_token s' with
        | (String t tok, String c' rest) =>
            if decide (c' = "}"%char) then Some (String t tok, rest) else None
        | _ => None
        end
      else None
  | EmptyString => None
  end.

(** [re.findall]: leftmost matches, scanning resumes after each match. *)
Fixpoint findall_from (fuel : nat) (s : string) : list string :=
  match fuel with
  | O => []
  | S fuel' =>
      match s with
      | EmptyString => []
      | String _ s' =>
          match match_here s with
          | Some (tok, rest) => tok :: findall_from fuel' rest
          | None => findall_from fuel' s'
          end
      end
  end.

Definition re_findall (s : string) : list string :=
  findall_from (String.length s) s.

(** The [set] built by the loop of [_extract_placeholders]. *)
Definition placeholder_set (steps : list step) : gset string :=
  foldl (λ (placeholders : gset string) (s : step),
           match s !! "value" with
           | Some (PStr value) => placeholders ∪ list_to_set (re_findall value)
           | _ => placeholders
           end) ∅ steps.

(** [list(placeholders)]: some enumeration of the set. *)
Definition _extract_placeholders (steps : list step) : list string :=
  elements (placeholder_set steps).

(** ** Selector synthesis: [getUniqueSelector] of the injected script *)

(** [el.className]: a string on an HTML element, an [SVGAnimatedString]
    object on an SVG element. *)
Inductive class_name :=
  | ClassString (s : string)
  | ClassAnimated.
Coercion ClassString : string >-> class_name.

#[local] Unset Elimination Schemes.
Inductive element := Element {
  el_id : string;                    (* el.id, empty without an id attribute *)
  el_name : option string;           (* el.name, undefined on most elements *)
  el_aria_label : option string;     (* el.getAttribute("aria-label") *)
  el_placeholder : option string;    (* el.getAttribute("placeholder") *)
  el_className : class_name;
  el_tagName : string;
  el_parentElement : option element;
  el_index : nat;                    (* children.indexOf(el) in the parent *)
}.
#[local] Set Elimination Schemes.

(** JavaScript truthiness of a string that may be null or undefined. *)
Definition truthy (o : option string) : option string :=
  match o with
  | Some (String c s) => Some (String c s)
  | _ => None
  end.

(** The ASCII characters matched by [\s]; the pattern matches other
    characters of Unicode as well. *)
Definition js_space (c : ascii) : bool :=
  bool_decide (c = " "%char) || bool_decide (c = "009"%char)
  || bool_decide (c = "010"%char) || bool_decide (c = "011"%char)
  || bool_decide (c = "012"%char) || bool_decide (c = "013"%char).

(** [s.split(/\s+/)] on a string of ASCII characters. *)
Fixpoint js_split_ws (cur : string) (in_sep : bool) (s : string) : list string :=
  match s with
  | EmptyString => [cur]
  | String c s' =>
      if js_space c then
        if in_sep then js_split_ws EmptyString true s'
        else cur :: js_split_ws EmptyString true s'
      else js_split_ws (cur +:+ String c EmptyString) false s'
  end.

(** The double quote of the attribute selectors. *)
Definition dquote : string := String "034"%char EmptyString.

Definition js_join (l : list string) : string := foldr String.app EmptyString l.

Section Selector.
(** What the script takes from the page and from the language: the number
    of matches of a selector ([None] when [querySelectorAll] throws on a
    malformed one), [CSS.escape], [toLowerCase] and the split of a class
    attribute at white space. *)
Variable querySelectorAll : string → option nat.
Variable CSS_escape : string → string.
Variable toLowerCase : string → string.
(** [s.split(/\s+/)]. *)
Variable split_spaces : string → list string.

(** [document.querySelectorAll(sel).length === 1]. *)
Definition unique (sel : string) : result bool :=
  match querySelectorAll sel with
  | Some n => Ok (bool_decide (n = 1))
  | None => Raise SyntaxError
  end.

(** Rules 2 to 4: an attribute selector, used when the attribute is set
    and the selector matches once. *)
Definition by_attribute (attr : string) (v : option string)
    (otherwise : result (option string)) : result (option string) :=
  match truthy v with
  | Some a =>
      let sel := "[" +:+ attr +:+ "=" +:+ dquote +:+ a +:+ dquote +:+ "]" in
      u ← unique sel;
      if (u : bool) then mret (Some sel) else otherwise
  | None => otherwise
  end.

(** [className.split(/\s+/).slice(0, 3).map(c => `.${CSS.escape(c)}`).join('')] *)
Definition class_part (className : string) : string :=
  js_join ((λ c, "." +:+ CSS_escape c)
             <$> take 3 (split_spaces className)).

Fixpoint getUniqueSelector_el (el : element) : result (option string) :=
  let tag := toLowerCase (el_tagName el) in
  let tail : result (option string) :=
    (* 6. recursive parent chain, 7. fallback: tag *)
    match el_parentElement el with
    | Some parent =>
        parentSelector ← getUniqueSelector_el parent;
        match truthy parentSelector with
        | Some p =>
            mret (Some (p +:+ " > " +:+ tag
                          +:+ ":nth-child(" +:+ pretty (el_index el + 1) +:+ ")"))
        | None => mret (Some tag)
        end
    | None => mret (Some tag)
    end in
  let by_class : result (option string) :=
    (* 5. class subset *)
    match el_className el with
    | ClassString EmptyString => tail
    | ClassString className =>
        match class_part className with
        | EmptyString => tail
        | classes =>
            let selector := tag +:+ classes in
            u ← unique selector;
            if (u : bool) then mret (Some selector) else tail
        end
    | ClassAnimated =>
        (* a truthy object without [split] *)
        Raise TypeError
    end in
  let by_attrs : result (option string) :=
    by_attribute "name" (el_name el)
      (by_attribute "aria-label" (el_aria_label el)
         (by_attribute "placeholder" (el_placeholder el) by_class)) in
  (* 1. ID *)
  match el_id el with
  | EmptyString => by_attrs
  | _ =>
      u ← unique ("#" +:+ CSS_escape (el_id el));
      if (u : bool) then mret (Some ("#" +:+ CSS_escape (el_id el))) else by_attrs
  end.

Definition getUniqueSelector (el : option element) : result (option string) :=
  match el with
  | None => mret None
  | Some e => getUniqueSelector_el e
  end.
End Selector.

(** ** The recipe store: the file handling of [_save_recipe] *)

#[local] Unset Elimination Schemes.
Inductive json :=
  | JNull
  | JBool (b : bool)
  | JNum (z : Z)
  | JStr (s : string)
  | JArr (items : list json)
  | JObj (fields : list (string * json)).
#[local] Set Elimination Schemes.

(** What [recipes_file.exists()], [open] and [f.read()] find. *)
Inductive file :=
  | Absent
  | Unreadable                 (* open or read raises OSError *)
  | Undecodable                (* the bytes are no text: read raises
                                  UnicodeDecodeError *)
  | Content (text : string).

(** Python's ASCII whitespace; [str.strip] removes other white space of
    Unicode as well. *)
Definition py_space (c : ascii) : bool :=
  bool_decide (c = " "%char)
  || (9 <=? nat_of_ascii c)%nat && (nat_of_ascii c <=? 13)%nat
  || (28 <=? nat_of_ascii c)%nat && (nat_of_ascii c <=? 31)%nat.

Fixpoint lstrip (s : string) : string :=
  match s with
  | String c s' => if py_space c then lstrip s' else s
  | EmptyString => EmptyString
  end.

Fixpoint rstrip (s : string) : string :=
  match s with
  | String c s' =>
      match rstrip s' with
      | EmptyString => if py_space c then EmptyString else String c EmptyString
      | r => String c r
      end
  | EmptyString => EmptyString
  end.

(** [str.strip] on a string of ASCII characters. *)
Definition ascii_strip (s : string) : string := rstrip (lstrip s).

Definition empty_store : json := JObj [("recipes", JArr [])].

(** Dict lookup and assignment on the fields of a JSON object. *)
Fixpoint obj_get (fields : list (string * json)) (k : string) : option json :=
  match fields with
  | [] => None
  | (k', v) :: rest => if decide (k' = k) then Some v else obj_get rest k
  end.

Fixpoint obj_set (fields : list (string * json)) (k : string) (v : json)
  : list (string * json) :=
  match fields with
  | [] => [(k, v)]
  | (k', v') :: rest =>
      if decide (k' = k) then (k', v) :: rest else (k', v') :: obj_set rest k v
  end.

(** [recipes["recipes"].append(recipe)]. *)
Definition append_recipe (recipes recipe : json) : result json :=
  match recipes with
  | JObj fields =>
      match obj_get fields "recipes" with
      | Some (JArr items) =>
          Ok (JObj (obj_set fields "recipes" (JArr (items ++ [recipe]))))
      | Some _ => Raise AttributeError
      | None => Raise (KeyError "recipes")
      end
  | _ => Raise TypeError
  end.

(** The recipes held by a store document. *)
Definition store_recipes (doc : json) : option (list json) :=
  match doc with
  | JObj fields =>
      match obj_get fields "recipes" with
      | Some (JArr items) => Some items
      | _ => None
      end
  | _ => None
  end.

Section Store.
(** [str.strip], [json.loads] with the exception it raises on a text it
    does not take, and [json.dump(_, f, indent=2)]. *)
Variable strip : string → string.
Variable json_loads : string → result json.
Variable json_dump : json → string.

(** The store as read at save time: [except (json.JSONDecodeError, OSError)]
    catches those two and nothing else. *)
Definition read_store (f : file) : result json :=
  match f with
  | Absent => Ok empty_store
  | Unreadable => Ok empty_store
  | Undecodable => Raise UnicodeDecodeError
  | Content text =>
      match strip text with
      | EmptyString => Ok empty_store
      | content =>
          match json_loads content with
          | Ok recipes => Ok recipes
          | Raise JSONDecodeError => Ok empty_store
          | Raise e => Raise e
          end
      end
  end.

(** The document that [_save_recipe] writes. *)
Definition saved_store (f : file) (recipe : json) : result json :=
  recipes ← read_store f;
  append_recipe recipes recipe.

(** The file after [_save_recipe], or the exception that escapes it;
    [write_error] is what opening the file for writing and writing to it
    raise, if anything. *)
Definition _save_recipe (write_error : option exn) (f : file) (recipe : json)
  : result file :=
  recipes ← saved_store f recipe;
  match write_error with
  | Some e => Raise e
  | None => mret (Content (json_dump recipes))
  end.
End Store.

(** ** Replay: [RecipeRunnerUI.run_recipe] *)

Inductive call :=
  | Goto (url : pyval)                  (* page.goto *)
  | Click (selector : pyval)            (* page.click *)
  | Fill (selector value : pyval).      (* page.fill *)

(** What a run does, in order. *)
Inductive effect :=
  | LogStep (i total : nat) (action : pyval)   (* "Step i/total: action" *)
  | Driver (c : call)
  | Sleep (seconds : Q)                        (* asyncio.sleep *)
  | LogUnknown (action : pyval)
  | LogFinished
  | LogError (e : exn)
  | Close.                                     (* browser.close() *)

(** Rounding of the quotient [n / m] of two positive integers to the
    nearest integer, ties to the even one. *)
Definition round_half_even (n m : Z) : Z :=
  let q := (n / m)%Z in
  let r := (n mod m)%Z in
  if (2 * r <? m)%Z then q
  else if (m <? 2 * r)%Z then (q + 1)%Z
  else if Z.even q then q else (q + 1)%Z.

(** [n / (m * 2 ^ e)] rounded to an integer, for an exponent of either
    sign. *)
Definition scaled_quotient (n m e : Z) : Z :=
  if (0 <=? e)%Z then round_half_even n (m * 2 ^ e)
  else round_half_even (n * 2 ^ (- e)) m.

(** The exponent [e] of the unit in the last place of the double nearest to
    [n / m]: the quotient [n / (m * 2 ^ e)] lies from [2 ^ 52] up to
    [2 ^ 53], and [e] does not go below that of the subnormal numbers. *)
Definition ulp_exponent (n m : Z) : Z :=
  let e := (Z.log2 n - Z.log2 m - 53)%Z in
  let floor :=
    if (0 <=? e)%Z then (n / (m * 2 ^ e))%Z else (n * 2 ^ (- e) / m)%Z in
  Z.max (if (2 ^ 53 <=? floor)%Z then e + 1 else e)%Z (-1074)%Z.

(** [a / b] on two integers, [b] positive: the double nearest to the
    quotient, ties to even, as the rational number it is; [OverflowError]
    when that number is beyond the range of the doubles. *)
Definition int_truediv (a b : Z) : result Q :=
  if (a =? 0)%Z then Ok 0%Q
  else
    let n := Z.abs a in
    let e := ulp_exponent n b in
    let mantissa := scaled_quotient n b e in
    if (0 <=? e)%Z && (2 ^ 1024 <=? mantissa * 2 ^ e)%Z then Raise OverflowError
    else
      Ok (Qred (if (0 <=? e)%Z
                then inject_Z (Z.sgn a * mantissa * 2 ^ e)
                else Qmake (Z.sgn a * mantissa) (Z.to_pos (2 ^ (- e))))).

(** [step.get("delay", 1000) / 1000]. *)
Definition wait_seconds (s : step) : result Q :=
  match default (PInt 1000) (s !! "delay") with
  | PInt d => int_truediv d 1000
  | _ => Raise TypeError
  end.

Section Replay.
(** The browser behind the driver: a state, and for every call the state
    it leaves and the error it raises, if any. *)
Context {page : Type}.
Variable drive : call → page → page * option exn.
(** The override map collected before the run. *)
Variable inputs : gmap pyval pyval.

Definition outcome : Type := list effect * page * option exn.

Definition driver_call (log : list effect) (c : call) (pg : page) : outcome :=
  let '(pg', err) := drive c pg in (log ++ [Driver c], pg', err).

(** One iteration of the loop; [i] counts from zero. *)
Definition run_step (total i : nat) (s : step) (pg : page) : outcome :=
  match s !! "action" with
  | None => ([], pg, Some (KeyError "action"))
  | Some action =>
      let log := [LogStep (i + 1) total action] in
      if decide (action = PStr "navigate") then
        match s !! "url" with
        | Some url => driver_call log (Goto url) pg
        | None => (log, pg, Some (KeyError "url"))
        end
      else if decide (action = PStr "click") then
        match s !! "selector" with
        | Some selector => driver_call log (Click selector) pg
        | None => (log, pg, Some (KeyError "selector"))
        end
      else if decide (action = PStr "fill") then
        match s !! "selector" with
        | Some selector =>
            match s !! "value" with
            | Some recorded =>
                let value := default recorded (inputs !! selector) in
                driver_call log (Fill selector value) pg
            | None => (log, pg, Some (KeyError "value"))
            end
        | None => (log, pg, Some (KeyError "selector"))
        end
      else if decide (action = PStr "wait") then
        match wait_seconds s with
        | Ok seconds => (log ++ [Sleep seconds], pg, None)
        | Raise e => (log, pg, Some e)
        end
      else (log ++ [LogUnknown action], pg, None)
  end.

(** The [for] loop from index [i] on: it stops at the first exception. *)
Fixpoint run_steps (total i : nat) (l : list step) (pg : page) : outcome :=
  match l with
  | [] => ([], pg, None)
  | s :: rest =>
      match run_step total i s pg with
      | (tr, pg', Some e) => (tr, pg', Some e)
      | (tr, pg', None) =>
          let '(tr', pg'', r) := run_steps total (S i) rest pg' in
          (tr ++ tr', pg'', r)
      end
  end.

(** The [try]/[except]/[finally] around the loop. *)
Definition run_recipe (recipe_steps : list step) (pg : page) : list effect :=
  let '(tr, _, r) := run_steps (length recipe_steps) 0 recipe_steps pg in
  tr ++ [match r with None => LogFinished | Some e => LogError e end]
     ++ [Sleep 3; Close].
End Replay.

(** ** Vocabulary of the statements *)

(** The step is a fill on selector [k], as [_collapse_fills] reads it. *)
Definition fill_on (k : pyval) (s : step) : Prop :=
  s !! "action" = Some (PStr "fill") ∧ s !! "selector" = Some k.

Definition fill_selector (s : step) : option pyval :=
  if decide (s !! "action" = Some (PStr "fill")) then s !! "selector" else None.

Definition is_fill (s : step) : bool :=
  bool_decide (s !! "action" = Some (PStr "fill")).

Definition non_fill (s : step) : bool := negb (is_fill s).

(** Two steps that are both fills on one selector. *)
Definition same_fill (s1 s2 : step) : Prop :=
  ∃ k, fill_on k s1 ∧ fill_on k s2.

Fixpoint no_adjacent_fills (l : list step) : Prop :=
  match l with
  | s1 :: (s2 :: _) as rest => ¬ same_fill s1 s2 ∧ no_adjacent_fills rest
  | _ => True
  end.

(** Steps on which the batch pass raises no [KeyError]. *)
Definition well_formed (s : step) : Prop :=
  is_Some (s !! "action") ∧
  (s !! "action" = Some (PStr "fill") → is_Some (s !! "selector")).

(** A pending dictionary as both passes keep it: every entry is a fill step
    stored under its own selector. *)
Definition pending_ok (d : odict step) : Prop :=
  NoDup (dict_keys d) ∧ Forall (λ kv, fill_on kv.1 kv.2) d.

(** The state of the loop stays of the shape that makes its output a fixed
    point: the collapsed prefix is reproduced by the loop with nothing left
    pending, and the pending dictionary is keyed by its own selectors. *)
Definition settled (st : list step * odict step) : Prop :=
  collapse_loop st.1 ([], []) = Ok (st.1, []) ∧ pending_ok st.2.

Definition loop_state (self : recorder) : list step * odict step :=
  (steps self, _last_fill_for_selector self).

#[global] Instance fill_on_dec k s : Decision (fill_on k s).
Proof. unfold fill_on. apply _. Defined.

(** The collapsed prefix of the loop has no such pair and never ends in a
    fill, so that appending the pending fills adds none. *)
Definition separated (st : list step * odict step) : Prop :=
  no_adjacent_fills st.1 ∧ (∀ s, last st.1 = Some s → non_fill s = true)
  ∧ pending_ok st.2.

(** A block: fills only, with a non-fill step (or nothing) on either side. *)
Definition fill_block (pre block post : list step) : Prop :=
  Forall (λ s, is_fill s = true) block
  ∧ (∀ s, last pre = Some s → non_fill s = true)
  ∧ (∀ s, head post = Some s → non_fill s = true).

Fixpoint has_char (c : ascii) (s : string) : bool :=
  match s with
  | EmptyString => false
  | String c' s' => bool_decide (c' = c) || has_char c s'
  end.

(** [x] stands between braces in [v]: it is not empty, holds no closing
    brace, and [v] reads [pre{x}post]. *)
Definition delimited (x v : string) : Prop :=
  x ≠ EmptyString ∧ has_char "}" x = false ∧
  ∃ pre post, v = pre +:+ "{" +:+ x +:+ "}" +:+ post.

(** The string ends with a closing brace. *)
Fixpoint ends_closed (s : string) : bool :=
  match s with
  | EmptyString => false
  | String c EmptyString => bool_decide (c = "}"%char)
  | String _ s' => ends_closed s'
  end.

(** The selector of rule 2 for a name. *)
Definition name_selector (n : string) : string :=
  "[" +:+ "name" +:+ "=" +:+ dquote +:+ n +:+ dquote +:+ "]".

(** [doc.get(k)] on a JSON object, [None] on anything else. *)
Definition json_field (doc : json) (k : string) : option json :=
  match doc with
  | JObj fields => obj_get fields k
  | _ => None
  end.

(** The driver call that a step makes, if it makes one: [page.goto],
    [page.click] or [page.fill] with the value after overrides. *)
Definition step_call (inputs : gmap pyval pyval) (s : step) : option call :=
  action ← s !! "action";
  if decide (action = PStr "navigate") then Goto <$> s !! "url"
  else if decide (action = PStr "click") then Click <$> s !! "selector"
  else if decide (action = PStr "fill") then
    selector ← s !! "selector";
    recorded ← s !! "value";
    Some (Fill selector (default recorded (inputs !! selector)))
  else None.

Definition is_close (e : effect) : bool :=
  match e with
  | Close => true
  | _ => false
  end.

(** How many times a run closes the browser. *)
Definition closes (tr : list effect) : nat := length (List.filter is_close tr).

(** ** Example data *)

(** The session of the end-to-end example: a navigation, three input events
    on one field, a click. *)
Definition example_stream : stream :=
  [ ("t0", StartUrl "https://example.test");
    ("t1", RecordInput (PStr "#q") (PStr "a"));
    ("t2", RecordInput (PStr "#q") (PStr "ab"));
    ("t3", RecordInput (PStr "#q") (PStr "abc"));
    ("t4", RecordClick (PStr "#submit") (PStr "Submit")) ].

Definition fill_step (now selector value : string) : step :=
  make_step now "fill" (event_data (RecordInput (PStr selector) (PStr value))).

Definition example_recipe : list step :=
  [ make_step "t0" "navigate" (event_data (Navigated (PStr "https://example.test")));
    fill_step "t3" "#q" "abc";
    make_step "t4" "click" (event_data (RecordClick (PStr "#submit") (PStr "Submit"))) ].

(** Fills on two selectors, interleaved. *)
Definition interleaved_fills : list step :=
  [fill_step "t1" "#a" "1"; fill_step "t2" "#b" "2"; fill_step "t3" "#a" "3"].

(** [run] is a maximal run of fills on selector [k] between [pre] and
    [post]. *)
Definition fill_run (k : pyval) (pre run post : list step) : Prop :=
  run ≠ [] ∧ Forall (fill_on k) run
  ∧ (∀ s, last pre = Some s → ¬ fill_on k s)
  ∧ (∀ s, head post = Some s → ¬ fill_on k s).

(** Every maximal run of fills on one selector leaves in the output a fill
    on that selector carrying the value of the last step of the run. *)
Definition runs_keep_last_value (input out : list step) : Prop :=
  ∀ k pre run post f,
    input = pre ++ run ++ post → fill_run k pre run post → last run = Some f →
    ∃ g, g ∈ out ∧ fill_on k g ∧ g !! "value" = f !! "value".

#[global] Instance call_eq_dec : EqDecision call.
Proof. solve_decision. Defined.

(** A driver on a page without state that accepts every call. *)
Definition steady_drive (c : call) (pg : unit) : unit * option exn := (pg, None).

(** A driver that finds no element for [#submit]. *)
Definition failing_drive (c : call) (pg : unit) : unit * option exn :=
  if decide (c = Click (PStr "#submit"))
  then (pg, Some (DriverError "no element matches #submit"))
  else (pg, None).

(** A wait step as the runner reads it, and one that names its field
    [delayMs]. *)
Definition wait_delay_step : step :=
  <["action" := PStr "wait"]> (<["delay" := PInt 500]> ∅).
Definition wait_delayMs_step : step :=
  <["action" := PStr "wait"]> (<["delayMs" := PInt 500]> ∅).

(** An input element with an id and a name. *)
Definition example_element : element :=
  Element "q" (Some "query") None None "" "INPUT" None 0.

(** The split of a class attribute of ASCII characters. *)
Definition ascii_split_spaces (className : string) : list string :=
  js_split_ws EmptyString false className.

(** An icon of an SVG drawing: no id, no name, an animated class. *)
Definition svg_icon : element :=
  Element "" None None None ClassAnimated "path" None 0.


(** ** Vocabulary of the further properties *)

(** The elements of a list in the order of their first occurrence. *)
Fixpoint first_occurrences (l : list pyval) : list pyval :=
  match l with
  | [] => []
  | x :: l' => x :: filter (λ y, y ≠ x) (first_occurrences l')
  end.

(** The selectors of the fills of a step list, in order. *)
Definition fill_selectors (l : list step) : list pyval := omap fill_selector l.

(** The selector of rule 6 for a child: the parent's selector, the tag and
    the one-based position among the parent's children. *)
Definition child_selector (parent tag : string) (index : nat) : string :=
  parent +:+ " > " +:+ tag +:+ ":nth-child(" +:+ pretty (index + 1) +:+ ")".

(** The id rule does not apply: no id, or an id that does not match once. *)
Definition id_rule_fails (querySelectorAll : string → option nat)
    (CSS_escape : string → string) (el : element) : Prop :=
  el_id el = EmptyString
  ∨ ∃ n, querySelectorAll ("#" +:+ CSS_escape (el_id el)) = Some n ∧ n ≠ 1.

(** The driver calls of a run, in order. *)
Definition driver_calls (tr : list effect) : list call :=
  omap (λ e, match e with Driver c => Some c | _ => None end) tr.

(** The actions that [run_recipe] knows. *)
Definition known_action (action : pyval) : Prop :=
  action = PStr "navigate" ∨ action = PStr "click"
  ∨ action = PStr "fill" ∨ action = PStr "wait".

(** ** The input dialog: [RecipeRunnerUI.ask_for_inputs] and its caller *)

Section Dialog.
(** What an [Entry] shows after [entry.insert(0, v)], and what the user
    has turned the text of row [i] into when the dialog ends. *)
Variable entry_text : pyval → string.
Variable edit : nat → string → string.

(** One row per fill step, [entries[selector] = entry]; an entry stands
    for the text it holds when the dialog ends. *)
Definition dialog_row (st : odict string * nat) (s : step)
  : result (odict string * nat) :=
  let '(entries, i) := st in
  selector ← getitem s "selector";
  let recorded_value := default (PStr "") (s !! "value") in
  mret (dict_set entries selector (edit i (entry_text recorded_value)), S i).

(** The map returned: with [pressed] the Run button ran [on_ok], without
    it the window was closed and [result] stayed empty. *)
Definition ask_for_inputs (fill_steps : list step) (pressed : bool)
  : result (gmap pyval pyval) :=
  st ← for_each dialog_row fill_steps ([], 0);
  mret (if pressed
        then list_to_map ((λ kv, (kv.1, PStr kv.2)) <$> st.1)
        else ∅).

(** [[s for s in recipe["steps"] if s["action"] == "fill"]] *)
Definition keep_fill (acc : list step) (s : step) : result (list step) :=
  action ← getitem s "action";
  mret (if decide (action = PStr "fill") then acc ++ [s] else acc).

Definition select_fill_steps (recipe_steps : list step) : result (list step) :=
  for_each keep_fill recipe_steps [].

(** The overrides that [run_selected_recipe] hands to [run_recipe]. *)
Definition collect_inputs (recipe_steps : list step) (pressed : bool)
  : result (gmap pyval pyval) :=
  fill_steps ← select_fill_steps recipe_steps;
  match fill_steps with
  | [] => mret ∅
  | _ => ask_for_inputs fill_steps pressed
  end.
End Dialog.

(** ** The runner's recipes: [RecipeRunnerUI.__init__] and [load_recipes] *)

(** A JSON value as a dict key: [True] and [False] hash and compare as 1
    and 0, lists and dicts are unhashable. *)
Definition name_key (name : json) : result pyval :=
  match name with
  | JNull => Ok PNone
  | JBool b => Ok (PInt (if b then 1 else 0))
  | JNum z => Ok (PInt z)
  | JStr s => Ok (PStr s)
  | JArr _ | JObj _ => Raise TypeError
  end.

(** [r["name"]]. *)
Definition recipe_name (r : json) : result json :=
  match r with
  | JObj fields =>
      match obj_get fields "name" with
      | Some name => Ok name
      | None => Raise (KeyError "name")
      end
  | _ => Raise TypeError
  end.

Fixpoint chars (s : string) : list json :=
  match s with
  | EmptyString => []
  | String c s' => JStr (String c EmptyString) :: chars s'
  end.

(** What [for r in data.get("recipes", [])] iterates over: the items of a
    list, the keys of a dict, the characters of a string. *)
Definition data_recipes (data : json) : result (list json) :=
  match data with
  | JObj fields =>
      match default (JArr []) (obj_get fields "recipes") with
      | JArr items => Ok items
      | JObj fs => Ok (JStr <$> fs.*1)
      | JStr s => Ok (chars s)
      | _ => Raise TypeError
      end
  | _ => Raise AttributeError
  end.

(** One step of [{r["name"]: r for r in ...}]: an entry holds the key as
    first inserted and the recipe last stored under it. *)
Definition index_recipe (d : odict (json * json)) (r : json)
  : result (odict (json * json)) :=
  name ← recipe_name r;
  key ← name_key name;
  mret (dict_set d key
          (match dict_get d key with
           | Some (name0, _) => name0
           | None => name
           end, r)).

Definition index_recipes (items : list json) : result (odict (json * json)) :=
  for_each index_recipe items [].

(** The dict key under which a recipe is stored. *)
Definition recipe_key (r : json) : result pyval := recipe_name r ≫= name_key.

(** [list(self.recipes.keys())]. *)
Definition recipe_names (d : odict (json * json)) : list json :=
  (λ kv, kv.2.1) <$> d.

(** The attributes of the window that [load_recipes] touches; [None] for an
    attribute that [__init__] has not set yet. *)
Record runner := Runner {
  recipes : odict (json * json);
  recipe_dropdown : option (list json);      (* the values of the Combobox *)
  log_area : option (list string);           (* the lines of the log pane *)
}.

Inductive message :=
  | ShowWarning (title text : string)
  | ShowError (e : exn)                      (* "Failed to load recipes: e" *)
  | ShowInfo (title text : string).

Section Runner.
(** [json.loads] with the exception it raises on a text it does not
    take. *)
Variable json_loads : string → result json.

(** [data = json.load(f)] under [with open(recipes_file, "r")]. *)
Definition load_data (f : file) : result json :=
  match f with
  | Content text => json_loads text
  | Undecodable => Raise UnicodeDecodeError
  | _ => Raise OSError
  end.

Definition load_recipes (f : file) (self : runner)
  : result (runner * list message) :=
  match f with
  | Absent =>
      match recipe_dropdown self with
      | Some _ =>
          Ok (Runner [] (Some []) (log_area self),
              [ShowWarning "No recipes" "No recipes.json file found."])
      | None => Raise AttributeError
      end
  | _ =>
      match data ← load_data f; items ← data_recipes data; index_recipes items with
      | Raise e => Ok (self, [ShowError e])
      | Ok d =>
          match recipe_dropdown self with
          | None => Ok (Runner d None (log_area self), [ShowError AttributeError])
          | Some _ =>
              match log_area self with
              | None =>
                  Ok (Runner d (Some (recipe_names d)) None,
                      [ShowError AttributeError])
              | Some lines =>
                  Ok (Runner d (Some (recipe_names d))
                        (Some (lines ++ ["Loaded " +:+ pretty (length d) +:+ " recipes"])),
                      [])
              end
          end
      end
  end.

(** [__init__]: [self.recipes = {}], [self.load_recipes()], and only then
    the dropdown, filled from the recipes, and the log pane. *)
Definition init (f : file) : result (runner * list message) :=
  loaded ← load_recipes f (Runner [] None None);
  mret (Runner (recipes loaded.1) (Some (recipe_names (recipes loaded.1))) (Some []),
        loaded.2).
End Runner.

(** ** The console loop of [start_recording] *)

(** [str.lower] on ASCII letters. *)
Definition ascii_lower (c : ascii) : ascii :=
  let n := nat_of_ascii c in
  if (65 <=? n)%nat && (n <=? 90)%nat then ascii_of_nat (n + 32) else c.

Fixpoint lower (s : string) : string :=
  match s with
  | EmptyString => EmptyString
  | String c s' => String (ascii_lower c) (lower s')
  end.

(** [s.startswith(p)] and [s[n:]]. *)
Fixpoint startswith (s p : string) : bool :=
  match p, s with
  | EmptyString, _ => true
  | String c p', String c' s' => bool_decide (c' = c) && startswith s' p'
  | String _ _, EmptyString => false
  end.

Fixpoint slice_from (n : nat) (s : string) : string :=
  match n, s with
  | O, _ => s
  | S n', String _ s' => slice_from n' s'
  | S _, EmptyString => EmptyString
  end.

Section Console.
Variable console_print : console_line → option exn.
Variable strip : string → string.

(** [user_input[len(":prompt"):].strip() or "Enter value"]. *)
Definition prompt_message (user_input : string) : string :=
  match strip (slice_from (String.length ":prompt") user_input) with
  | EmptyString => "Enter value"
  | m => m
  end.

(** What one line typed at the console does to the recorder: [None] when
    the line stops the recording, the recorder after the line otherwise;
    an exception of [_add_step] or of the line printed after it leaves the
    loop, which catches [KeyboardInterrupt] only. *)
Definition on_line (now user_input : string) (self : recorder)
  : result (option recorder) :=
  if decide (lower user_input = "stop") then mret None
  else if startswith user_input ":prompt" then
    let message := prompt_message user_input in
    match _add_step console_print now "prompt" (<["message" := PStr message]> ∅) self with
    | (_, Some e) => Raise e
    | (self', None) =>
        match console_print (AddedPrompt message) with
        | Some e => Raise e
        | None => mret (Some self')
        end
    end
  else mret (Some self).
End Console.

(** * Proofs *)

(** ** The loop combinator *)

Lemma for_each_app {S A : Type} (body : S → A → result S) (l1 l2 : list A) (st : S) :
  for_each body (l1 ++ l2) st = for_each body l1 st ≫= for_each body l2.
Proof.
  revert st. induction l1 as [|x l1 IH]; intros st; simpl; [done|].
  destruct (body st x) as [st'|e]; simpl; [apply IH|done].
Qed.

(** ** Insertion-ordered dictionaries *)

Lemma dict_set_fresh {V : Type} (d : odict V) k v :
  k ∉ dict_keys d → dict_set d k v = d ++ [(k, v)].
Proof.
  induction d as [|[k' v'] d IH]; simpl; [done|].
  intros Hk. apply not_elem_of_cons in Hk as [Hne Hk].
  destruct (decide (k' = k)) as [->|_]; [done|]. by rewrite IH.
Qed.

Lemma dict_keys_set {V : Type} (d : odict V) k v :
  dict_keys (dict_set d k v)
  = if decide (k ∈ dict_keys d) then dict_keys d else dict_keys d ++ [k].
Proof.
  unfold dict_keys. induction d as [|[k' v'] d IH].
  - case_decide as Hin; [by apply elem_of_nil in Hin|done].
  - cbn [dict_set]. destruct (decide (k' = k)) as [->|Hne].
    + rewrite decide_True; [done|]. cbn. left.
    + rewrite fmap_cons, IH. cbn [fst].
      destruct (decide (k ∈ d.*1)) as [Hin|Hin].
      * rewrite decide_True; [done|]. cbn. by right.
      * rewrite decide_False; [done|]. cbn.
        intros [?|?]%elem_of_cons; [congruence|done].
Qed.

Lemma dict_set_NoDup {V : Type} (d : odict V) k v :
  NoDup (dict_keys d) → NoDup (dict_keys (dict_set d k v)).
Proof.
  intros Hd. rewrite dict_keys_set. case_decide; [done|].
  apply NoDup_app. split_and!; [done| |apply NoDup_singleton].
  intros x Hx ->%list_elem_of_singleton. done.
Qed.

Lemma dict_set_elem {V : Type} (d : odict V) k v kv :
  kv ∈ dict_set d k v → kv ∈ d ∨ (kv.2 = v ∧ kv.1 = k).
Proof.
  induction d as [|[k' v'] d IH]; simpl.
  - intros ->%list_elem_of_singleton. by right.
  - destruct (decide (k' = k)) as [->|Hne].
    + intros [->|?]%elem_of_cons; [by right|]. left. by right.
    + intros [->|?]%elem_of_cons; [left; left|].
      destruct IH as [?|?]; [done| |by right]. left. by right.
Qed.

Lemma pending_ok_nil : pending_ok [].
Proof. split; [apply NoDup_nil_2|apply Forall_nil_2]. Qed.

Lemma pending_ok_set d k s :
  pending_ok d → fill_on k s → pending_ok (dict_set d k s).
Proof.
  intros [Hnd Hall] Hs. split; [by apply dict_set_NoDup|].
  apply Forall_forall. intros kv [Hin|[Hv Hk]]%dict_set_elem.
  - by eapply Forall_forall in Hall.
  - by rewrite Hv, Hk.
Qed.

(** ** The body of the batch pass, case by case *)

Lemma collapse_body_fill c d s k :
  fill_on k s → collapse_body (c, d) s = Ok (c, dict_set d k s).
Proof.
  intros [Ha Hs]. unfold collapse_body, getitem, mbind, result_bind.
  rewrite Ha. rewrite decide_True by done. by rewrite Hs.
Qed.

Lemma collapse_body_other c d s :
  is_Some (s !! "action") → non_fill s = true →
  collapse_body (c, d) s = Ok ((c ++ dict_values d) ++ [s], []).
Proof.
  intros [a Ha] Hnf. unfold collapse_body, getitem, mbind, result_bind.
  rewrite Ha. rewrite decide_False; [done|]. intros ->.
  unfold non_fill, is_fill in Hnf. by rewrite bool_decide_eq_true_2 in Hnf.
Qed.

Lemma collapse_body_Ok c d s st' :
  collapse_body (c, d) s = Ok st' →
  (∃ k, fill_on k s ∧ st' = (c, dict_set d k s)) ∨
  (is_Some (s !! "action") ∧ non_fill s = true
   ∧ st' = ((c ++ dict_values d) ++ [s], [])).
Proof.
  unfold collapse_body, getitem, mbind, result_bind.
  destruct (s !! "action") as [a|] eqn:Ha; [|done].
  destruct (decide (a = PStr "fill")) as [->|Hne].
  - destruct (s !! "selector") as [k|] eqn:Hs; [|done].
    intros [= <-]. left. by exists k.
  - intros [= <-]. right. split_and!; [by eexists| |done].
    unfold non_fill, is_fill. rewrite Ha.
    rewrite bool_decide_eq_false_2; [done|]. congruence.
Qed.

Lemma collapse_body_total c d s :
  well_formed s → ∃ st', collapse_body (c, d) s = Ok st'.
Proof.
  intros [[a Ha] Hsel]. unfold collapse_body, getitem, mbind, result_bind.
  rewrite Ha.
  destruct (decide (a = PStr "fill")) as [->|Hne]; [|by eexists].
  destruct (Hsel Ha) as [k ->]. by eexists.
Qed.

(** ** The loop of the batch pass *)

Lemma collapse_loop_app l1 l2 st :
  collapse_loop (l1 ++ l2) st = collapse_loop l1 st ≫= collapse_loop l2.
Proof. apply for_each_app. Qed.

Lemma collapse_loop_cons s l st :
  collapse_loop (s :: l) st = collapse_body st s ≫= collapse_loop l.
Proof. done. Qed.

(** Feeding the values of a pending dictionary back into the loop rebuilds
    that dictionary, entry by entry and in the same order. *)
Lemma collapse_loop_values d2 : ∀ d1 rest c,
  pending_ok (d1 ++ d2) →
  collapse_loop (dict_values d2 ++ rest) (c, d1) = collapse_loop rest (c, d1 ++ d2).
Proof.
  induction d2 as [|[k s] d2 IH]; intros d1 rest c Hok.
  - by rewrite app_nil_r.
  - destruct Hok as [Hnd Hall].
    assert (fill_on k s) as Hks.
    { apply Forall_app in Hall as [_ Hall]. by apply Forall_cons in Hall as [? _]. }
    assert (k ∉ dict_keys d1) as Hfresh.
    { unfold dict_keys in *. rewrite fmap_app in Hnd.
      apply NoDup_app in Hnd as (_ & Hdisj & _).
      intros Hin. apply (Hdisj _ Hin). cbn. left. }
    unfold dict_values. cbn [fmap list_fmap snd app].
    rewrite collapse_loop_cons, (collapse_body_fill _ _ _ k) by done.
    rewrite dict_set_fresh by done. cbn [mbind result_bind].
    change (list_fmap _ _ snd d2) with (dict_values d2).
    rewrite IH.
    + by rewrite <-app_assoc.
    + rewrite <-app_assoc. by split.
Qed.

Lemma collapse_loop_flush d c :
  pending_ok d → collapse_loop (dict_values d) (c, []) = Ok (c, d).
Proof.
  intros Hd. rewrite <-(app_nil_r (dict_values d)).
  by rewrite collapse_loop_values.
Qed.

Lemma settled_init : settled ([], []).
Proof. split; [done|apply pending_ok_nil]. Qed.

Lemma settled_body st s st' :
  settled st → collapse_body st s = Ok st' → settled st'.
Proof.
  destruct st as [c d]. intros [Hc Hd] Hb.
  apply collapse_body_Ok in Hb as [(k & Hk & ->)|(Ha & Hnf & ->)].
  - split; [done|]. by apply pending_ok_set.
  - split; [|apply pending_ok_nil]. cbn [fst snd] in *.
    rewrite <-app_assoc, collapse_loop_app, Hc. cbn [mbind result_bind].
    rewrite collapse_loop_values by done.
    cbn [app]. rewrite collapse_loop_cons, collapse_body_other by done.
    cbn. by rewrite app_assoc.
Qed.

Lemma settled_loop l : ∀ st st',
  settled st → collapse_loop l st = Ok st' → settled st'.
Proof.
  induction l as [|s l IH]; intros st st' Hst.
  - by intros [= <-].
  - rewrite collapse_loop_cons.
    destruct (collapse_body st s) as [st1|e] eqn:Hb; [|done].
    cbn [mbind result_bind]. apply IH. by eapply settled_body.
Qed.

Lemma collapse_fills_fixed c d :
  settled (c, d) → _collapse_fills (c ++ dict_values d) = Ok (c ++ dict_values d).
Proof.
  intros [Hc Hd]. unfold _collapse_fills. cbn [fst snd] in *.
  rewrite collapse_loop_app, Hc. cbn [mbind result_bind].
  by rewrite collapse_loop_flush.
Qed.

Lemma collapse_fills_Ok l out :
  _collapse_fills l = Ok out →
  ∃ c d, collapse_loop l ([], []) = Ok (c, d) ∧ out = c ++ dict_values d.
Proof.
  unfold _collapse_fills.
  destruct (collapse_loop l ([], [])) as [[c d]|e]; [|done].
  intros [= <-]. by exists c, d.
Qed.

Lemma collapse_fills_idem_Ok l out :
  _collapse_fills l = Ok out → _collapse_fills out = Ok out.
Proof.
  intros (c & d & Hl & ->)%collapse_fills_Ok.
  apply collapse_fills_fixed. eapply settled_loop; [apply settled_init|done].
Qed.

Lemma collapse_loop_total l : ∀ st,
  Forall well_formed l → ∃ st', collapse_loop l st = Ok st'.
Proof.
  induction l as [|s l IH]; intros [c d] Hl; [by eexists|].
  apply Forall_cons in Hl as [Hs Hl]. rewrite collapse_loop_cons.
  destruct (collapse_body_total c d s Hs) as [st1 ->]. by apply IH.
Qed.

Lemma collapse_fills_total l :
  Forall well_formed l → ∃ out, _collapse_fills l = Ok out.
Proof.
  intros Hl. destruct (collapse_loop_total l ([], []) Hl) as [[c d] Hst].
  unfold _collapse_fills. rewrite Hst. by eexists.
Qed.

(** C2. The batch pass is idempotent: running [_collapse_fills] on its own
    output returns that output unchanged, and on an input on which it raises
    the composition raises the same exception. *)
Theorem collapse_fills_idempotent (input : list step) :
  _collapse_fills input ≫= _collapse_fills = _collapse_fills input.
Proof.
  destruct (_collapse_fills input) as [out|e] eqn:Hin; [|done].
  cbn [mbind result_bind]. by eapply collapse_fills_idem_Ok.
Qed.

(** ** Non-fill steps *)

Lemma fill_on_non_fill k s : fill_on k s → non_fill s = false.
Proof.
  intros [Ha _]. unfold non_fill, is_fill. by rewrite bool_decide_eq_true_2.
Qed.

Lemma pending_values_fill d :
  pending_ok d → List.filter non_fill (dict_values d) = [].
Proof.
  intros [_ Hall]. induction Hall as [|[k s] d Hks _ IH]; [done|].
  cbn in *. by rewrite (fill_on_non_fill k s).
Qed.

Lemma collapse_loop_non_fill l : ∀ c d c' d',
  pending_ok d → collapse_loop l (c, d) = Ok (c', d') →
  pending_ok d' ∧
  List.filter non_fill c' = List.filter non_fill c ++ List.filter non_fill l.
Proof.
  induction l as [|s l IH]; intros c d c' d' Hd.
  - intros [= <- <-]. by rewrite app_nil_r.
  - rewrite collapse_loop_cons.
    destruct (collapse_body (c, d) s) as [[c1 d1]|e] eqn:Hb; [|done].
    cbn [mbind result_bind]. intros Hl.
    apply collapse_body_Ok in Hb as [(k & Hk & [= -> ->])|(Ha & Hnf & [= -> ->])].
    + apply IH in Hl as [Hd' ->]; [|by apply pending_ok_set].
      split; [done|]. cbn. by rewrite (fill_on_non_fill k s).
    + apply IH in Hl as [Hd' ->]; [|apply pending_ok_nil].
      split; [done|]. rewrite !List.filter_app, pending_values_fill by done.
      cbn. rewrite Hnf. by rewrite app_nil_r, <-app_assoc.
Qed.

(** C10. The batch pass neither drops, duplicates nor reorders non-fill
    steps: the non-fill steps of the output are those of the input, element
    for element and in the same order. *)
Theorem collapse_fills_keeps_non_fill (input out : list step) :
  _collapse_fills input = Ok out →
  List.filter non_fill out = List.filter non_fill input.
Proof.
  intros (c & d & Hl & ->)%collapse_fills_Ok.
  apply collapse_loop_non_fill in Hl as [Hd Hc]; [|apply pending_ok_nil].
  by rewrite List.filter_app, Hc, pending_values_fill, app_nil_r.
Qed.

(** ** The live pass *)

Lemma make_step_action now action data :
  data !! "action" = None → make_step now action data !! "action" = Some (PStr action).
Proof.
  intros Hd. unfold make_step. rewrite lookup_union_r by done.
  by rewrite lookup_insert_eq.
Qed.

Lemma event_data_action ev : event_data ev !! "action" = None.
Proof. by destruct ev. Qed.

Lemma make_step_data now action data k v :
  data !! k = Some v → make_step now action data !! k = Some v.
Proof. intros Hd. unfold make_step. by erewrite lookup_union_Some_l. Qed.

Section RecordingProofs.
Variable console_print : console_line → option exn.
Variable callback_survives : string * event → exn → bool.

(** On an event of the recorder, [_add_step] does to the recorder what the
    body of the batch loop does to its state on the step of that event,
    whatever the console does with the line. *)
Lemma add_step_collapse_body self now ev :
  collapse_body (loop_state self) (make_step now (event_action ev) (event_data ev))
  = Ok (loop_state
          (_add_step console_print now (event_action ev) (event_data ev) self).1).
Proof.
  destruct self as [c d]. unfold loop_state.
  cbn [fst snd steps _last_fill_for_selector].
  destruct ev as [sel text|sel value|url|message|url].
  - rewrite collapse_body_other; [done| |].
    + rewrite make_step_action; [by eexists|done].
    + unfold non_fill, is_fill. rewrite make_step_action by done.
      by rewrite bool_decide_eq_false_2.
  - rewrite (collapse_body_fill _ _ _ sel); [done|]. split.
    + by rewrite make_step_action.
    + apply make_step_data. cbn. by rewrite lookup_insert_eq.
  - rewrite collapse_body_other; [done| |].
    + rewrite make_step_action; [by eexists|done].
    + unfold non_fill, is_fill. rewrite make_step_action by done.
      by rewrite bool_decide_eq_false_2.
  - rewrite collapse_body_other; [done| |].
    + rewrite make_step_action; [by eexists|done].
    + unfold non_fill, is_fill. rewrite make_step_action by done.
      by rewrite bool_decide_eq_false_2.
  - rewrite collapse_body_other; [done| |].
    + rewrite make_step_action; [by eexists|done].
    + unfold non_fill, is_fill. rewrite make_step_action by done.
      by rewrite bool_decide_eq_false_2.
Qed.

Lemma feed_cons tev evs self :
  feed console_print (tev :: evs) self
  = feed console_print evs
      (_add_step console_print tev.1 (event_action tev.2) (event_data tev.2) self).1.
Proof. done. Qed.

Lemma feed_collapse_loop evs : ∀ self,
  collapse_loop (raw_steps evs) (loop_state self)
  = Ok (loop_state (feed console_print evs self)).
Proof.
  induction evs as [|tev evs IH]; intros self; [done|].
  cbn [raw_steps fmap list_fmap]. rewrite collapse_loop_cons, feed_cons.
  rewrite add_step_collapse_body. cbn [mbind result_bind]. apply IH.
Qed.

(** The batch pass on the raw steps gives the steps that the calls and the
    flush leave in the recorder. *)
Lemma collapse_raw_steps evs :
  _collapse_fills (raw_steps evs)
  = Ok (steps (flush_pending (feed console_print evs recorder_init))).
Proof.
  unfold _collapse_fills.
  change (@nil step, @nil (pyval * step)) with (loop_state recorder_init).
  rewrite feed_collapse_loop. by destruct (feed console_print evs recorder_init).
Qed.

Lemma on_event_Ok self tev self' :
  on_event console_print callback_survives self tev = Ok self' →
  self' = (_add_step console_print tev.1 (event_action tev.2) (event_data tev.2) self).1.
Proof.
  unfold on_event.
  destruct (_add_step _ _ _ _ self) as [self1 raised]. cbn [fst].
  destruct tev.2; destruct raised as [e|];
    repeat case_match; congruence.
Qed.

Lemma for_each_on_event_feed evs : ∀ self self',
  for_each (on_event console_print callback_survives) evs self = Ok self' →
  self' = feed console_print evs self.
Proof.
  induction evs as [|tev evs IH]; intros self self'; [by intros [= <-]|].
  cbn [for_each]. rewrite feed_cons.
  destruct (on_event _ _ self tev) as [self1|e] eqn:Hev; [|done].
  apply on_event_Ok in Hev as ->. cbn [mbind result_bind]. apply IH.
Qed.

(** When the recording reaches its end, the steps of the live pass are the
    ones that the calls and the flush leave in the recorder. *)
Lemma live_pass_Ok evs live :
  live_pass console_print callback_survives evs = Ok live →
  live = steps (flush_pending (feed console_print evs recorder_init)).
Proof.
  unfold live_pass.
  destruct (for_each _ evs recorder_init) as [self|e] eqn:Hf; [|done].
  apply for_each_on_event_feed in Hf as ->. by intros [= <-].
Qed.

Lemma live_pass_collapse evs live :
  live_pass console_print callback_survives evs = Ok live →
  _collapse_fills (raw_steps evs) = Ok live.
Proof. intros ->%live_pass_Ok. apply collapse_raw_steps. Qed.

(** The second pass of [_save_recipe] returns the steps of the live pass. *)
Lemma recorded_steps_live evs :
  recorded_steps console_print callback_survives evs
  = live_pass console_print callback_survives evs.
Proof.
  unfold recorded_steps.
  destruct (live_pass _ _ evs) as [live|e] eqn:Hl; [|done].
  cbn [mbind result_bind].
  apply live_pass_collapse in Hl. by eapply collapse_fills_idem_Ok.
Qed.

Lemma recorded_steps_collapse evs out :
  recorded_steps console_print callback_survives evs = Ok out →
  _collapse_fills (raw_steps evs) = Ok out.
Proof. rewrite recorded_steps_live. apply live_pass_collapse. Qed.

Lemma add_step_other now action data self :
  action ≠ "fill" →
  _add_step console_print now action data self
  = (Recorder
       ((steps self ++ dict_values (_last_fill_for_selector self))
          ++ [make_step now action data]) [],
     console_print (Recorded action data)).
Proof. intros Ha. unfold _add_step. by rewrite decide_False. Qed.

Lemma add_step_fill now data self selector value :
  data !! "selector" = Some selector → data !! "value" = Some value →
  _add_step console_print now "fill" data self
  = (Recorder (steps self)
       (dict_set (_last_fill_for_selector self) selector (make_step now "fill" data)),
     console_print (UpdatedFill selector value)).
Proof. intros Hs Hv. unfold _add_step. rewrite decide_True by done. by rewrite Hs, Hv. Qed.

Lemma on_event_prints self tev :
  (∀ line, line ∈ event_lines tev.2 → console_print line = None) →
  on_event console_print callback_survives self tev
  = Ok (_add_step console_print tev.1 (event_action tev.2) (event_data tev.2) self).1.
Proof.
  intros Hp. destruct tev as [now ev]. unfold on_event. cbn [fst snd] in *.
  destruct ev as [sel text|sel value|url|message|url];
    cbn [event_lines event_action event_data] in *.
  - rewrite add_step_other by done. rewrite Hp; [done|left].
  - rewrite (add_step_fill _ _ _ sel value) by done. rewrite Hp; [done|left].
  - rewrite add_step_other by done. rewrite Hp; [done|left].
  - rewrite add_step_other by done.
    rewrite (Hp (Recorded _ _)) by left.
    rewrite (Hp (AddedPrompt _)); [done|right; left].
  - rewrite add_step_other by done. rewrite Hp; [done|left].
Qed.

(** On a console that prints every line of the stream the recording reaches
    its end. *)
Lemma live_pass_prints_all evs :
  prints_all console_print evs →
  live_pass console_print callback_survives evs
  = Ok (steps (flush_pending (feed console_print evs recorder_init))).
Proof.
  unfold live_pass, prints_all. generalize recorder_init.
  induction evs as [|tev evs IH]; intros self Hp; [done|].
  cbn [for_each]. rewrite feed_cons.
  rewrite on_event_prints by (intros line Hl; apply (Hp tev); [left|done]).
  cbn [mbind result_bind mret result_ret] in *. apply IH.
  intros tev' line Hin. apply Hp. by right.
Qed.
End RecordingProofs.

(** What the calls leave in the recorder does not depend on the console. *)
Lemma feed_any_console console1 console2 evs : ∀ self,
  feed console1 evs self = feed console2 evs self.
Proof.
  induction evs as [|tev evs IH]; intros self; [done|].
  rewrite !feed_cons, IH. f_equal. unfold _add_step.
  case_decide; [|done]. by repeat case_match.
Qed.

Lemma raw_steps_well_formed evs : Forall well_formed (raw_steps evs).
Proof.
  apply Forall_fmap, Forall_forall. intros [now ev] _. split.
  - rewrite make_step_action; [by eexists|apply event_data_action].
  - rewrite make_step_action by apply event_data_action.
    destruct ev as [sel text|sel value|url|message|url]; [done| |done|done|done].
    intros _. exists sel. apply make_step_data. cbn. by rewrite lookup_insert_eq.
Qed.

(** C1. For every raw event stream, the steps that the calls of [_add_step]
    and the flush of the pending fills leave in the recorder go through the
    batch pass to a step sequence, and it is the one that a single batch
    pass returns on the raw stream of steps.  [_add_step] updates the
    recorder before it prints, so this holds whatever the console does with
    the lines; a recording that reaches its end has these steps as its live
    pass and saves that sequence, and on a console that prints every line of
    the stream the recording does reach its end. *)
Theorem live_then_batch_is_batch
    (console_print : console_line → option exn)
    (callback_survives : string * event → exn → bool) (evs : stream) :
  let live := steps (flush_pending (feed console_print evs recorder_init)) in
  (∃ out, _collapse_fills live = Ok out ∧ _collapse_fills (raw_steps evs) = Ok out)
  ∧ (∀ l, live_pass console_print callback_survives evs = Ok l → l = live)
  ∧ (∀ out, recorded_steps console_print callback_survives evs = Ok out →
            _collapse_fills (raw_steps evs) = Ok out)
  ∧ (prints_all console_print evs →
     ∃ out, recorded_steps console_print callback_survives evs = Ok out
            ∧ _collapse_fills (raw_steps evs) = Ok out).
Proof.
  intros live. pose proof (collapse_raw_steps console_print evs) as Hraw.
  fold live in Hraw. split_and!.
  - exists live. split; [by eapply collapse_fills_idem_Ok|done].
  - apply live_pass_Ok.
  - apply recorded_steps_collapse.
  - intros Hp. exists live. split; [|done].
    rewrite recorded_steps_live. by apply live_pass_prints_all.
Qed.

(** ** Adjacent fills *)

Lemma fill_on_inj k1 k2 s : fill_on k1 s → fill_on k2 s → k1 = k2.
Proof. intros [_ H1] [_ H2]. congruence. Qed.

Lemma no_adjacent_fills_app l1 l2 :
  no_adjacent_fills l1 → no_adjacent_fills l2 →
  (∀ x y, last l1 = Some x → head l2 = Some y → ¬ same_fill x y) →
  no_adjacent_fills (l1 ++ l2).
Proof.
  induction l1 as [|x [|x' l1] IH]; intros H1 H2 Hj; [done| |].
  - destruct l2 as [|y l2]; [done|]. split; [by apply Hj|done].
  - destruct H1 as [Hxx H1]. split; [done|]. apply IH; [done|done|].
    intros a b Ha Hb. by apply Hj.
Qed.

Lemma no_adjacent_fills_values d :
  pending_ok d → no_adjacent_fills (dict_values d).
Proof.
  intros [Hnd Hall]. induction d as [|[k1 s1] [|[k2 s2] d] IH]; [done|done|].
  apply Forall_cons in Hall as [H1 Hall].
  apply NoDup_cons in Hnd as [Hk1 Hnd]. split.
  - intros (k & Hs1 & Hs2). apply Forall_cons in Hall as [H2 _]. cbn in *.
    apply Hk1. rewrite <-(fill_on_inj _ _ _ Hs1 H1), (fill_on_inj _ _ _ Hs2 H2).
    left.
  - by apply IH.
Qed.

Lemma same_fill_non_fill_l x y : non_fill x = true → ¬ same_fill x y.
Proof. intros Hx (k & Hk & _). apply fill_on_non_fill in Hk. congruence. Qed.

Lemma same_fill_non_fill_r x y : non_fill y = true → ¬ same_fill x y.
Proof. intros Hy (k & _ & Hk). apply fill_on_non_fill in Hk. congruence. Qed.

Lemma separated_flush c d s :
  separated (c, d) → non_fill s = true →
  no_adjacent_fills ((c ++ dict_values d) ++ [s]).
Proof.
  intros (Hc & Hlast & Hd) Hs. cbn [fst snd] in *.
  apply no_adjacent_fills_app; [|done|].
  - apply no_adjacent_fills_app; [done|by apply no_adjacent_fills_values|].
    intros x y Hx _. apply same_fill_non_fill_l. by apply Hlast.
  - intros x y _ [= <-]. by apply same_fill_non_fill_r.
Qed.

Lemma separated_loop l : ∀ st st',
  separated st → collapse_loop l st = Ok st' → separated st'.
Proof.
  induction l as [|s l IH]; intros [c d] st' Hst.
  - by intros [= <-].
  - rewrite collapse_loop_cons.
    destruct (collapse_body (c, d) s) as [st1|e] eqn:Hb; [|done].
    cbn [mbind result_bind]. apply IH.
    apply collapse_body_Ok in Hb as [(k & Hk & ->)|(Ha & Hnf & ->)].
    + destruct Hst as (Hc & Hlast & Hd). split_and!; [done|done|].
      by apply pending_ok_set.
    + split_and!; [by apply separated_flush| |apply pending_ok_nil].
      cbn [fst]. intros s'. rewrite last_snoc. by intros [= <-].
Qed.

Lemma collapse_fills_no_adjacent input out :
  _collapse_fills input = Ok out → no_adjacent_fills out.
Proof.
  intros (c & d & Hl & ->)%collapse_fills_Ok.
  apply separated_loop in Hl as (Hc & Hlast & Hd).
  - cbn [fst snd] in *.
    apply no_adjacent_fills_app; [done|by apply no_adjacent_fills_values|].
    intros x y Hx _. apply same_fill_non_fill_l. by apply Hlast.
  - split_and!; [done|done|apply pending_ok_nil].
Qed.

(** ** Blocks of consecutive fills *)

Lemma dict_get_set {V : Type} (d : odict V) k v k' :
  dict_get (dict_set d k v) k' = if decide (k = k') then Some v else dict_get d k'.
Proof.
  induction d as [|[k0 v0] d IH]; cbn [dict_set dict_get].
  - destruct (decide (k = k')); [done|done].
  - destruct (decide (k0 = k)) as [->|Hne]; cbn [dict_get].
    + destruct (decide (k = k')); [done|done].
    + rewrite IH. destruct (decide (k0 = k')) as [->|?]; [|done].
      by rewrite decide_False.
Qed.

Lemma collapse_loop_block block : ∀ c d c' d',
  Forall (λ s, is_fill s = true) block → pending_ok d →
  collapse_loop block (c, d) = Ok (c', d') →
  c' = c ∧ pending_ok d' ∧
  ∀ k, dict_get d' k
       = match last (filter (fill_on k) block) with
         | Some f => Some f
         | None => dict_get d k
         end.
Proof.
  induction block as [|s block IH]; intros c d c' d' Hfills Hd.
  - by intros [= <- <-].
  - apply Forall_cons in Hfills as [Hs Hfills]. rewrite collapse_loop_cons.
    destruct (collapse_body (c, d) s) as [[c1 d1]|e] eqn:Hb; [|done].
    cbn [mbind result_bind]. intros Hl.
    apply collapse_body_Ok in Hb as [(k0 & Hk0 & [= -> ->])|(_ & Hnf & _)].
    2:{ unfold non_fill in Hnf. by rewrite Hs in Hnf. }
    apply IH in Hl as (-> & Hd' & Hget); [|done|by apply pending_ok_set].
    split_and!; [done|done|]. intros k. rewrite Hget, dict_get_set.
    destruct (decide (k0 = k)) as [<-|Hne].
    + rewrite filter_cons_True by done. rewrite last_cons.
      by destruct (last (filter (fill_on k0) block)).
    + rewrite filter_cons_False; [done|].
      intros Hk. by apply Hne, (fill_on_inj _ _ s).
Qed.

Lemma collapse_loop_prefix l : ∀ c d c' d',
  collapse_loop l (c, d) = Ok (c', d') → ∃ more, c' = c ++ more.
Proof.
  induction l as [|s l IH]; intros c d c' d'.
  - intros [= <- <-]. exists []. by rewrite app_nil_r.
  - rewrite collapse_loop_cons.
    destruct (collapse_body (c, d) s) as [[c1 d1]|e] eqn:Hb; [|done].
    cbn [mbind result_bind]. intros [more ->]%IH.
    apply collapse_body_Ok in Hb as [(k0 & Hk0 & [= -> ->])|(_ & _ & [= -> ->])].
    + by exists more.
    + exists (dict_values d ++ [s] ++ more). by rewrite <-!app_assoc.
Qed.

Lemma collapse_loop_boundary pre : ∀ c d c' d',
  (∀ s, last pre = Some s → non_fill s = true) → pending_ok d →
  collapse_loop pre (c, d) = Ok (c', d') → pre = [] ∨ d' = [].
Proof.
  induction pre as [|s pre IH]; intros c d c' d' Hlast Hd; [by left|].
  rewrite collapse_loop_cons.
  destruct (collapse_body (c, d) s) as [[c1 d1]|e] eqn:Hb; [|done].
  cbn [mbind result_bind]. intros Hl. right.
  destruct pre as [|s' pre].
  - injection Hl as <- <-.
    apply collapse_body_Ok in Hb as [(k0 & Hk0 & _)|(_ & _ & [= _ ->])]; [|done].
    apply fill_on_non_fill in Hk0. rewrite Hlast in Hk0; done.
  - apply IH in Hl as [?|?]; [done|done| |].
    + intros x Hx. apply Hlast. by rewrite last_cons, Hx.
    + apply collapse_body_Ok in Hb as [(k0 & Hk0 & [= _ ->])|(_ & _ & [= _ ->])].
      * by apply pending_ok_set.
      * apply pending_ok_nil.
Qed.

Lemma dict_get_Some_elem {V : Type} (d : odict V) k v :
  dict_get d k = Some v → (k, v) ∈ d.
Proof.
  induction d as [|[k0 v0] d IH]; cbn [dict_get]; [done|].
  destruct (decide (k0 = k)) as [->|Hne].
  - intros [= ->]. left.
  - intros Hg. right. by apply IH.
Qed.

Lemma dict_get_elem_NoDup {V : Type} (d : odict V) k v :
  NoDup (dict_keys d) → (k, v) ∈ d → dict_get d k = Some v.
Proof.
  unfold dict_keys. induction d as [|[k0 v0] d IH]; cbn [dict_get].
  - by intros _ ?%elem_of_nil.
  - rewrite fmap_cons. intros [Hk0 Hnd]%NoDup_cons [[= -> ->]|Hin]%elem_of_cons.
    + by rewrite decide_True.
    + rewrite decide_False; [by apply IH|]. intros ->. apply Hk0.
      apply list_elem_of_fmap. by exists (k, v).
Qed.

Lemma pending_values_selectors d :
  pending_ok d → fill_selector <$> dict_values d = Some <$> dict_keys d.
Proof.
  intros [_ Hall]. unfold dict_values, dict_keys.
  induction Hall as [|[k s] d [Ha Hs] _ IH]; [done|].
  rewrite !fmap_cons, IH. f_equal. cbn in *. unfold fill_selector.
  by rewrite decide_True.
Qed.

(** The fills that a block leaves in the output: one per selector, each the
    last fill of the block on its selector. *)
Lemma pending_values_block d block :
  pending_ok d →
  (∀ k, dict_get d k = last (filter (fill_on k) block)) →
  Forall (λ f, is_fill f = true) (dict_values d)
  ∧ NoDup (fill_selector <$> dict_values d)
  ∧ ∀ k f, f ∈ dict_values d ∧ fill_on k f
           ↔ last (filter (fill_on k) block) = Some f.
Proof.
  intros Hd Hget. split_and!.
  - destruct Hd as [_ Hall]. unfold dict_values. apply Forall_fmap.
    eapply Forall_impl; [exact Hall|]. intros [k s] [Ha _]. cbn in *.
    unfold is_fill. by rewrite bool_decide_eq_true_2.
  - rewrite pending_values_selectors by done.
    apply (NoDup_fmap_2 _). apply Hd.
  - intros k f. rewrite <-Hget. destruct Hd as [Hnd Hall]. split.
    + intros [Hin Hk]. apply list_elem_of_fmap in Hin as ([k' f'] & -> & Hin).
      cbn in *. apply dict_get_elem_NoDup; [done|].
      assert (fill_on k' f') as Hk'.
      { rewrite Forall_forall in Hall. by apply (Hall (k', f')). }
      by rewrite (fill_on_inj _ _ _ Hk Hk').
    + intros Hin%dict_get_Some_elem. split.
      * apply list_elem_of_fmap. by exists (k, f).
      * rewrite Forall_forall in Hall. by apply (Hall (k, f)).
Qed.

(** C3, as the code has it.  The output of the batch pass has no two
    adjacent fills on one selector.  A block of consecutive fills, closed on
    either side by a non-fill step or by an end of the input, leaves in the
    output, right after the output for what precedes it, one fill per
    selector filled in the block, and that fill is the last one of the block
    on its selector; fills on distinct selectors are all kept. *)
Theorem collapse_fills_blocks (input out : list step) :
  _collapse_fills input = Ok out →
  no_adjacent_fills out ∧
  ∀ pre block post,
    input = pre ++ block ++ post → fill_block pre block post →
    ∃ before kept after,
      out = before ++ kept ++ after
      ∧ _collapse_fills pre = Ok before
      ∧ Forall (λ f, is_fill f = true) kept
      ∧ NoDup (fill_selector <$> kept)
      ∧ ∀ k f, f ∈ kept ∧ fill_on k f ↔ last (filter (fill_on k) block) = Some f.
Proof.
  intros Hout. split; [by eapply collapse_fills_no_adjacent|].
  intros pre block post -> (Hfills & Hpre & Hpost).
  apply collapse_fills_Ok in Hout as (c & d & Hl & ->).
  rewrite collapse_loop_app in Hl.
  destruct (collapse_loop pre ([], [])) as [[c1 d1]|e] eqn:H1; [|done].
  cbn [mbind result_bind] in Hl.
  assert (d1 = []) as ->.
  { destruct (collapse_loop_boundary _ _ _ _ _ Hpre pending_ok_nil H1) as [-> | ->];
      [by injection H1|done]. }
  rewrite collapse_loop_app in Hl.
  revert Hl. destruct (collapse_loop block _) as [[c2 d2]|e] eqn:H2; [|done].
  cbn [mbind result_bind]. intros Hl.
  apply collapse_loop_block in H2 as (-> & Hd2 & Hget);
    [|done|apply pending_ok_nil].
  assert (∀ k, dict_get d2 k = last (filter (fill_on k) block)) as Hget'.
  { intros k. rewrite Hget. by destruct (last (filter (fill_on k) block)). }
  destruct (pending_values_block d2 block Hd2 Hget') as (Hk1 & Hk2 & Hk3).
  assert (_collapse_fills pre = Ok c1) as Hbefore.
  { unfold _collapse_fills. rewrite H1. cbn. by rewrite app_nil_r. }
  destruct post as [|n post].
  - injection Hl as <- <-. exists c1, (dict_values d2), [].
    by rewrite app_nil_r.
  - rewrite collapse_loop_cons in Hl.
    destruct (collapse_body (c1, d2) n) as [[c3 d3]|e] eqn:Hb; [|done].
    cbn [mbind result_bind] in Hl.
    apply collapse_body_Ok in Hb as [(k0 & Hk0 & _)|(_ & _ & [= -> ->])].
    { apply fill_on_non_fill in Hk0. rewrite (Hpost n) in Hk0; done. }
    apply collapse_loop_prefix in Hl as [more ->].
    exists c1, (dict_values d2), ([n] ++ more ++ dict_values d).
    split_and!; [|done..]. by rewrite <-!app_assoc.
Qed.

(** ** Placeholders *)

Lemma string_app_nil s : EmptyString +:+ s = s.
Proof. reflexivity. Qed.

Lemma string_app_cons c s1 s2 : String c s1 +:+ s2 = String c (s1 +:+ s2).
Proof. reflexivity. Qed.

Lemma string_app_length s1 s2 :
  String.length (s1 +:+ s2) = String.length s1 + String.length s2.
Proof.
  induction s1 as [|c s1 IH]; [done|].
  rewrite string_app_cons. cbn. by f_equal.
Qed.

Lemma span_token_spec s tok rest :
  span_token s = (tok, rest) → s = tok +:+ rest ∧ has_char "}" tok = false.
Proof.
  revert tok rest. induction s as [|c s IH]; intros tok rest; cbn.
  - by intros [= <- <-].
  - destruct (decide (c = "}"%char)) as [->|Hc].
    + by intros [= <- <-].
    + destruct (span_token s) as [tok' rest'] eqn:Hsp. intros [= <- <-].
      destruct (IH _ _ eq_refl) as [-> Hno]. split; [done|]. cbn.
      by rewrite bool_decide_eq_false_2.
Qed.

Lemma match_here_spec s tok rest :
  match_here s = Some (tok, rest) →
  s = "{" +:+ tok +:+ "}" +:+ rest ∧ tok ≠ EmptyString ∧ has_char "}" tok = false.
Proof.
  destruct s as [|c s]; cbn; [done|].
  destruct (decide (c = "{"%char)) as [->|]; [|done].
  destruct (span_token s) as [[|t tok'] [|c' rest']] eqn:Hsp; try done.
  destruct (decide (c' = "}"%char)) as [->|]; [|done].
  intros [= <- <-]. apply span_token_spec in Hsp as [-> Hno]. done.
Qed.

Lemma match_here_shorter s tok rest :
  match_here s = Some (tok, rest) → (String.length rest < String.length s)%nat.
Proof.
  intros (-> & _ & _)%match_here_spec. rewrite !string_app_length. cbn. lia.
Qed.

(** The fuel of [re_findall] never runs out. *)
Lemma findall_from_enough n : ∀ m s,
  (String.length s ≤ n)%nat → (String.length s ≤ m)%nat →
  findall_from n s = findall_from m s.
Proof.
  induction n as [|n IH]; intros m s Hn Hm.
  - destruct s; [|cbn in Hn; lia]. by destruct m.
  - destruct m as [|m]; [destruct s; [done|cbn in Hm; lia]|].
    destruct s as [|c s]; [done|]. cbn [findall_from].
    destruct (match_here (String c s)) as [[tok rest]|] eqn:Hm'.
    + apply match_here_shorter in Hm'. cbn in *. f_equal. apply IH; lia.
    + cbn in *. apply IH; lia.
Qed.

Lemma re_findall_cons c s :
  re_findall (String c s)
  = match match_here (String c s) with
    | Some (tok, rest) => tok :: re_findall rest
    | None => re_findall s
    end.
Proof.
  unfold re_findall. cbn [String.length findall_from].
  destruct (match_here (String c s)) as [[tok rest]|] eqn:Hm.
  - apply match_here_shorter in Hm. cbn in Hm. f_equal.
    apply findall_from_enough; lia.
  - apply findall_from_enough; lia.
Qed.

Lemma string_app_assoc s1 s2 s3 : (s1 +:+ s2) +:+ s3 = s1 +:+ s2 +:+ s3.
Proof.
  induction s1 as [|c s1 IH]; [done|]. rewrite !string_app_cons. by f_equal.
Qed.

Lemma delimited_cons c x v : delimited x v → delimited x (String c v).
Proof.
  intros (Hx & Hno & pre & post & ->). split_and!; [done|done|].
  by exists (String c pre), post.
Qed.

Lemma delimited_app p x v : delimited x v → delimited x (p +:+ v).
Proof.
  induction p as [|c p IH]; [done|]. intros Hx.
  rewrite string_app_cons. by apply delimited_cons, IH.
Qed.

(** Every match of the pattern is a token that stands between braces. *)
Lemma findall_from_delimited n : ∀ v x, x ∈ findall_from n v → delimited x v.
Proof.
  induction n as [|n IH]; intros v x; [by intros ?%elem_of_nil|].
  destruct v as [|c v]; [by intros ?%elem_of_nil|]. cbn [findall_from].
  destruct (match_here (String c v)) as [[tok rest]|] eqn:Hm.
  - apply match_here_spec in Hm as (Hv & Hne & Hno).
    intros [->|Hin]%elem_of_cons.
    + split_and!; [done|done|]. exists EmptyString, rest. by rewrite Hv.
    + rewrite Hv. apply IH in Hin.
      rewrite <-!string_app_assoc. by apply delimited_app.
  - intros Hin. by apply delimited_cons, IH.
Qed.

(** A value without an opening brace has no match. *)
Lemma re_findall_no_brace v : has_char "{" v = false → re_findall v = [].
Proof.
  induction v as [|c v IH]; [done|]. cbn [has_char].
  intros [Hc Hv]%orb_false_elim. rewrite re_findall_cons.
  apply bool_decide_eq_false in Hc. cbn [match_here].
  rewrite decide_False by done. by apply IH.
Qed.

Lemma ends_closed_cons c s : s ≠ EmptyString → ends_closed (String c s) = ends_closed s.
Proof. by destruct s. Qed.

Lemma ends_closed_app s1 s2 :
  s2 ≠ EmptyString → ends_closed (s1 +:+ s2) = ends_closed s2.
Proof.
  intros Hs2. induction s1 as [|c s1 IH]; [done|].
  rewrite string_app_cons, ends_closed_cons; [done|]. by destruct s1, s2.
Qed.

Lemma ends_closed_has_char s : ends_closed s = true → has_char "}" s = true.
Proof.
  induction s as [|c s IH]; [done|]. destruct s as [|c' s'].
  - cbn. intros ->. done.
  - rewrite ends_closed_cons by done. intros Hs.
    change (bool_decide (c = "}"%char) || has_char "}" (String c' s') = true).
    rewrite IH by done. apply orb_true_r.
Qed.

Lemma span_token_rest s tok c r : span_token s = (tok, String c r) → c = "}"%char.
Proof.
  revert tok. induction s as [|c' s IH]; intros tok; cbn; [done|].
  destruct (decide (c' = "}"%char)) as [->|Hc]; [by intros [= _ <- _]|].
  destruct (span_token s) as [tok' rest'] eqn:Hsp. intros [= _ ->]. by eapply IH.
Qed.

Lemma span_token_nil s tok : span_token s = (tok, EmptyString) → has_char "}" s = false.
Proof.
  intros Hsp. apply span_token_spec in Hsp as [-> Hno].
  clear -Hno. induction tok as [|c tok IH]; [done|].
  rewrite string_app_cons. cbn [has_char] in *.
  apply orb_false_elim in Hno as [-> Hno]. by apply IH.
Qed.

Lemma span_token_app s tok c r rest :
  span_token s = (tok, String c r) →
  span_token (s +:+ rest) = (tok, String c (r +:+ rest)).
Proof.
  revert tok. induction s as [|c' s IH]; intros tok; [done|].
  rewrite string_app_cons. cbn [span_token].
  destruct (decide (c' = "}"%char)) as [->|Hc]; [by intros [= <- <- <-]|].
  destruct (span_token s) as [tok' rest'] eqn:Hsp. intros [= <- ->].
  by rewrite (IH tok').
Qed.

Lemma span_token_found x post :
  has_char "}" x = false → span_token (x +:+ "}" +:+ post) = (x, "}" +:+ post).
Proof.
  induction x as [|c x IH]; [done|]. cbn [has_char].
  intros [Hc Hx]%orb_false_elim. apply bool_decide_eq_false in Hc.
  rewrite string_app_cons. cbn [span_token].
  rewrite decide_False by done. by rewrite IH.
Qed.

Lemma re_findall_token x post :
  x ≠ EmptyString → has_char "}" x = false →
  re_findall ("{" +:+ x +:+ "}" +:+ post) = x :: re_findall post.
Proof.
  intros Hx Hno. change ("{" +:+ x +:+ "}" +:+ post) with (String "{" (x +:+ "}" +:+ post)).
  rewrite re_findall_cons. cbn [match_here].
  rewrite decide_True, span_token_found by done.
  by destruct x as [|c x].
Qed.

Lemma re_findall_skip pre rest :
  has_char "{" pre = false → re_findall (pre +:+ rest) = re_findall rest.
Proof.
  induction pre as [|c pre IH]; [done|]. cbn [has_char].
  intros [Hc Hpre]%orb_false_elim. apply bool_decide_eq_false in Hc.
  rewrite string_app_cons, re_findall_cons. cbn [match_here].
  rewrite decide_False by done. by apply IH.
Qed.

(** Scanning a text that ends with a closing brace leaves nothing pending:
    the matches of what follows are found as if it stood alone. *)
Lemma re_findall_closed n : ∀ pre rest,
  (String.length pre < n)%nat →
  pre = EmptyString ∨ ends_closed pre = true →
  re_findall (pre +:+ rest) = re_findall pre ++ re_findall rest.
Proof.
  induction n as [|n IH]; intros pre rest Hlen Hpre; [lia|].
  destruct pre as [|c p]; [done|]. destruct Hpre as [|Hpre]; [done|].
  assert (p = EmptyString ∨ ends_closed p = true) as Hp.
  { destruct p; [by left|right]. by rewrite ends_closed_cons in Hpre. }
  cbn [String.length] in Hlen.
  rewrite string_app_cons, !re_findall_cons. cbn [match_here].
  destruct (decide (c = "{"%char)) as [->|Hc]; [|apply IH; [lia|done]].
  destruct (span_token p) as [tok [|c' r]] eqn:Hsp.
  { apply span_token_nil in Hsp. destruct Hp as [->|Hp].
    - done.
    - apply ends_closed_has_char in Hp. congruence. }
  pose proof (span_token_rest _ _ _ _ Hsp) as ->.
  rewrite (span_token_app _ _ _ _ rest Hsp).
  destruct tok as [|t tok]; [apply IH; [lia|done]|].
  rewrite !decide_True by done. cbn [app]. f_equal.
  apply span_token_spec in Hsp as [Hp' _].
  apply IH.
  - pose proof (f_equal String.length Hp') as Hlen'.
    rewrite string_app_length in Hlen'. cbn in Hlen'. lia.
  - destruct r as [|c'' r]; [by left|right].
    destruct Hp as [->|Hp]; [done|].
    rewrite Hp' in Hp.
    change (String "}" (String c'' r)) with ("}" +:+ String c'' r) in Hp.
    by rewrite <-string_app_assoc, ends_closed_app in Hp.
Qed.

(** A token between braces is found whenever no opening brace stands
    between it and the closing brace before it (or the start of the value). *)
Lemma re_findall_complete pre1 pre2 x post :
  pre1 = EmptyString ∨ ends_closed pre1 = true →
  has_char "{" pre2 = false →
  x ≠ EmptyString → has_char "}" x = false →
  x ∈ re_findall (pre1 +:+ pre2 +:+ "{" +:+ x +:+ "}" +:+ post).
Proof.
  intros Hpre1 Hpre2 Hx Hno.
  rewrite (re_findall_closed (S (String.length pre1))) by (done || lia).
  rewrite re_findall_skip, re_findall_token by done.
  apply elem_of_app. right. left.
Qed.

Lemma placeholder_fold_elem steps : ∀ (acc : gset string) x,
  x ∈ foldl (λ (placeholders : gset string) (s : step),
               match s !! "value" with
               | Some (PStr value) => placeholders ∪ list_to_set (re_findall value)
               | _ => placeholders
               end) acc steps
  ↔ x ∈ acc ∨ ∃ s v, s ∈ steps ∧ s !! "value" = Some (PStr v) ∧ x ∈ re_findall v.
Proof.
  induction steps as [|s steps IH]; intros acc x; cbn [foldl].
  - split; [by left|]. intros [?|(s & v & ?%elem_of_nil & _)]; done.
  - rewrite IH. split.
    + intros [Hacc|(s' & v & Hin & Hv & Hx)].
      * destruct (s !! "value") as [[| |v]|] eqn:Hv; [by left..| |by left].
        apply elem_of_union in Hacc as [?|Hx%elem_of_list_to_set]; [by left|].
        right. exists s, v. split_and!; [left|done|done].
      * right. exists s', v. split_and!; [by right|done|done].
    + intros [Hacc|(s' & v & [->|Hin]%elem_of_cons & Hv & Hx)].
      * left. destruct (s !! "value") as [[| |v]|]; [done..| |done].
        apply elem_of_union. by left.
      * left. rewrite Hv. apply elem_of_union. right.
        by apply elem_of_list_to_set.
      * right. by exists s', v.
Qed.

(** C7, as the code has it.  The placeholders of a step sequence are,
    without duplicates, the tokens that the pattern finds in the string
    values of its steps, scanning each from left to right.  Each of them
    stands between braces in such a value, and a token between braces is
    found whenever no other opening brace precedes it after the last closing
    brace.  The value ["Hello {name}, your code is {otp}"] gives [name] and
    [otp]; a value without an opening brace gives nothing. *)
Theorem extract_placeholders_tokens (steps : list step) :
  NoDup (_extract_placeholders steps)
  ∧ (∀ x, x ∈ _extract_placeholders steps
          ↔ ∃ s v, s ∈ steps ∧ s !! "value" = Some (PStr v) ∧ x ∈ re_findall v)
  ∧ (∀ v x, x ∈ re_findall v → delimited x v)
  ∧ (∀ pre1 pre2 x post,
       pre1 = EmptyString ∨ ends_closed pre1 = true →
       has_char "{" pre2 = false → x ≠ EmptyString → has_char "}" x = false →
       x ∈ re_findall (pre1 +:+ pre2 +:+ "{" +:+ x +:+ "}" +:+ post))
  ∧ re_findall "Hello {name}, your code is {otp}" = ["name"; "otp"]
  ∧ (∀ v, has_char "{" v = false → re_findall v = []).
Proof.
  split_and!.
  - unfold _extract_placeholders. apply NoDup_elements.
  - intros x. unfold _extract_placeholders, placeholder_set.
    rewrite elem_of_elements, placeholder_fold_elem. split; [|by right].
    by intros [?%elem_of_empty|?].
  - intros v x. apply findall_from_delimited.
  - apply re_findall_complete.
  - by vm_compute.
  - apply re_findall_no_brace.
Qed.

(** ** Selector synthesis *)

(** C8. First match wins: an element whose id is not empty and matches once
    in the document gets the selector [#id] (escaped), whatever its name
    attribute is, so also when the name is unique as well; that selector is
    not the [[name="..."]] form of any name. *)
Theorem id_selector_first
    (querySelectorAll : string → option nat) (CSS_escape toLowerCase : string → string)
    (split_spaces : string → list string)
    (el : element) :
  el_id el ≠ EmptyString →
  querySelectorAll ("#" +:+ CSS_escape (el_id el)) = Some 1 →
  getUniqueSelector querySelectorAll CSS_escape toLowerCase split_spaces (Some el)
  = Ok (Some ("#" +:+ CSS_escape (el_id el)))
  ∧ ∀ n, getUniqueSelector querySelectorAll CSS_escape toLowerCase split_spaces (Some el)
         ≠ Ok (Some (name_selector n)).
Proof.
  intros Hid Huniq.
  assert (getUniqueSelector querySelectorAll CSS_escape toLowerCase split_spaces (Some el)
          = Ok (Some ("#" +:+ CSS_escape (el_id el)))) as Hsel.
  { destruct el as [id name aria ph cls tag parent idx]. cbn in *.
    destruct id as [|c id]; [done|]. unfold unique. by rewrite Huniq. }
  split; [done|]. intros n. rewrite Hsel. by intros [=].
Qed.

(** ** The recipe store *)

Lemma obj_get_set fields k v k' :
  obj_get (obj_set fields k v) k' = if decide (k = k') then Some v else obj_get fields k'.
Proof.
  induction fields as [|[k0 v0] fields IH]; cbn [obj_set obj_get].
  - destruct (decide (k = k')); [done|done].
  - destruct (decide (k0 = k)) as [->|Hne]; cbn [obj_get].
    + destruct (decide (k = k')); [done|done].
    + rewrite IH. destruct (decide (k0 = k')) as [->|?]; [|done].
      by rewrite decide_False.
Qed.

Lemma append_recipe_store doc old recipe :
  store_recipes doc = Some old →
  ∃ doc', append_recipe doc recipe = Ok doc'
          ∧ store_recipes doc' = Some (old ++ [recipe])
          ∧ ∀ k, k ≠ "recipes" → json_field doc' k = json_field doc k.
Proof.
  destruct doc as [| | | | |fields]; try done. cbn.
  destruct (obj_get fields "recipes") as [[| | | |items|]|] eqn:Hget; try done.
  intros [= ->]. eexists. split_and!; [done| |].
  - cbn. by rewrite obj_get_set, decide_True.
  - intros k Hk. cbn. by rewrite obj_get_set, decide_False.
Qed.

(** The store at save time, where the file can be read as text: an absent
    file reads as [{"recipes": []}], and so does a file whose content is
    empty, blank or not JSON.  Whenever the store read holds a list of
    recipes, the save writes, unless the write fails, the document read with
    the new recipe appended to that list: the recipes read come first,
    unchanged and in their order, and every other key is kept. *)
Lemma save_recipe_appends
    (strip : string → string) (json_loads : string → result json)
    (json_dump : json → string) (recipe : json) :
  read_store strip json_loads Absent = Ok empty_store
  ∧ (∀ text, strip text = EmptyString ∨ json_loads (strip text) = Raise JSONDecodeError →
             read_store strip json_loads (Content text) = Ok empty_store)
  ∧ (∀ text doc, strip text ≠ EmptyString → json_loads (strip text) = Ok doc →
                 read_store strip json_loads (Content text) = Ok doc)
  ∧ (∀ f doc old,
       read_store strip json_loads f = Ok doc → store_recipes doc = Some old →
       ∃ doc', _save_recipe strip json_loads json_dump None f recipe
               = Ok (Content (json_dump doc'))
               ∧ (∀ e, _save_recipe strip json_loads json_dump (Some e) f recipe
                       = Raise e)
               ∧ saved_store strip json_loads f recipe = Ok doc'
               ∧ store_recipes doc' = Some (old ++ [recipe])
               ∧ ∀ k, k ≠ "recipes" → json_field doc' k = json_field doc k)
  ∧ store_recipes empty_store = Some [].
Proof.
  split_and!; [done| | | |done].
  - intros text [Hs|Hs]; cbn; [by rewrite Hs|].
    destruct (strip text); [done|]. by rewrite Hs.
  - intros text doc Hne Hs. cbn.
    destruct (strip text); [done|]. by rewrite Hs.
  - intros f doc old Hread Hold.
    destruct (append_recipe_store _ _ recipe Hold) as (doc' & Happ & Hrec & Hkeys).
    exists doc'. unfold _save_recipe, saved_store. rewrite Hread.
    cbn [mbind result_bind]. rewrite Happ. done.
Qed.

(** C9, where the code departs from it.  A [recipes.json] whose bytes are
    no text in the encoding of [open] is corrupt content, yet the save does
    not reinitialize it: [f.read()] raises [UnicodeDecodeError], which
    [except (json.JSONDecodeError, OSError)] does not catch, so the
    exception leaves [_save_recipe] and nothing is written, whether the
    file could be written or not. *)
Theorem save_recipe_undecodable
    (strip : string → string) (json_loads : string → result json)
    (json_dump : json → string) (write_error : option exn) (recipe : json) :
  read_store strip json_loads Undecodable = Raise UnicodeDecodeError
  ∧ _save_recipe strip json_loads json_dump write_error Undecodable recipe
    = Raise UnicodeDecodeError
  ∧ read_store strip json_loads Unreadable = Ok empty_store.
Proof. done. Qed.

(** ** Replay *)

Section ReplayProofs.
Context {page : Type}.
Variable drive : call → page → page * option exn.
Variable inputs : gmap pyval pyval.

Lemma closes_app tr1 tr2 : closes (tr1 ++ tr2) = closes tr1 + closes tr2.
Proof. unfold closes. by rewrite List.filter_app, length_app. Qed.

Lemma driver_call_closes log c pg :
  closes (driver_call drive log c pg).1.1 = closes log.
Proof.
  unfold driver_call. destruct (drive c pg) as [pg' err]. cbn [fst].
  rewrite closes_app. cbn. lia.
Qed.

Lemma run_step_closes total i s pg :
  closes (run_step drive inputs total i s pg).1.1 = 0.
Proof.
  unfold run_step. destruct (s !! "action") as [action|]; [|done].
  repeat case_decide.
  - destruct (s !! "url"); [by rewrite driver_call_closes|done].
  - destruct (s !! "selector"); [by rewrite driver_call_closes|done].
  - destruct (s !! "selector"); [|done].
    destruct (s !! "value"); [by rewrite driver_call_closes|done].
  - by destruct (wait_seconds s).
  - done.
Qed.

Lemma run_steps_closes total l : ∀ i pg,
  closes (run_steps drive inputs total i l pg).1.1 = 0.
Proof.
  induction l as [|s l IH]; intros i pg; [done|]. cbn [run_steps].
  pose proof (run_step_closes total i s pg) as Hs.
  destruct (run_step drive inputs total i s pg) as [[tr pg'] [e|]]; [done|].
  specialize (IH (S i) pg').
  destruct (run_steps drive inputs total (S i) l pg') as [[tr' pg''] r].
  cbn [fst] in *. rewrite closes_app. lia.
Qed.

Lemma run_steps_app total l1 l2 : ∀ i pg,
  run_steps drive inputs total i (l1 ++ l2) pg
  = match run_steps drive inputs total i l1 pg with
    | (tr, pg', Some e) => (tr, pg', Some e)
    | (tr, pg', None) =>
        let '(tr', pg'', r) :=
          run_steps drive inputs total (i + length l1) l2 pg' in
        (tr ++ tr', pg'', r)
    end.
Proof.
  induction l1 as [|s l1 IH]; intros i pg.
  - cbn. rewrite Nat.add_0_r. by destruct (run_steps _ _ _ _ l2 pg) as [[? ?] ?].
  - cbn [app run_steps length].
    destruct (run_step drive inputs total i s pg) as [[tr pg'] [e|]]; [done|].
    rewrite IH. replace (S i + length l1) with (i + S (length l1)) by lia.
    destruct (run_steps drive inputs total (S i) l1 pg') as [[tr1 pg1] [e|]];
      [done|].
    destruct (run_steps drive inputs total (i + S (length l1)) l2 pg1)
      as [[tr2 pg2] r].
    by rewrite app_assoc.
Qed.

Lemma run_recipe_closes_once l pg : closes (run_recipe drive inputs l pg) = 1.
Proof.
  unfold run_recipe. pose proof (run_steps_closes (length l) l 0 pg) as Hl.
  destruct (run_steps drive inputs (length l) 0 l pg) as [[tr pg'] r].
  cbn [fst] in Hl. rewrite !closes_app, Hl. by destruct r.
Qed.
End ReplayProofs.

(** The override of a fill step that carries a recorded value: the driver
    is asked to fill the step's selector with the entry of the override map
    for that selector when there is one, be it the empty string, and with
    the recorded value otherwise; with an empty override map it is the
    recorded value. *)
Lemma fill_value_override {page : Type}
    (drive : call → page → page * option exn) (inputs : gmap pyval pyval)
    (total i : nat) (s : step) (pg : page) (selector recorded : pyval) :
  s !! "action" = Some (PStr "fill") →
  s !! "selector" = Some selector →
  s !! "value" = Some recorded →
  (∀ value, inputs !! selector = Some value →
     (run_step drive inputs total i s pg).1.1
     = [LogStep (i + 1) total (PStr "fill"); Driver (Fill selector value)])
  ∧ (inputs !! selector = None →
     (run_step drive inputs total i s pg).1.1
     = [LogStep (i + 1) total (PStr "fill"); Driver (Fill selector recorded)])
  ∧ (run_step drive ∅ total i s pg).1.1
    = [LogStep (i + 1) total (PStr "fill"); Driver (Fill selector recorded)].
Proof.
  intros Ha Hs Hv.
  assert (∀ m : gmap pyval pyval,
    (run_step drive m total i s pg).1.1
    = [LogStep (i + 1) total (PStr "fill");
       Driver (Fill selector (default recorded (m !! selector)))]) as Hrun.
  { intros m. unfold run_step. rewrite Ha, Hs, Hv.
    rewrite decide_False, decide_False, decide_True by done.
    unfold driver_call. by destruct (drive _ pg). }
  split_and!.
  - intros value Hin. by rewrite Hrun, Hin.
  - intros Hin. by rewrite Hrun, Hin.
  - by rewrite Hrun, lookup_empty.
Qed.

Lemma run_step_call {page : Type}
    (drive : call → page → page * option exn) (inputs : gmap pyval pyval)
    (total i : nat) (s : step) (pg : page) (c : call) :
  step_call inputs s = Some c →
  ∃ action, s !! "action" = Some action
            ∧ run_step drive inputs total i s pg
              = ([LogStep (i + 1) total action; Driver c],
                 (drive c pg).1, (drive c pg).2).
Proof.
  unfold step_call, run_step, driver_call.
  destruct (s !! "action") as [action|]; [|done]. cbn [mbind option_bind].
  intros Hc. exists action. split; [done|]. revert Hc.
  repeat case_decide; try done.
  - destruct (s !! "url"); [|done]. intros [= <-]. by destruct (drive _ pg).
  - destruct (s !! "selector"); [|done]. intros [= <-]. by destruct (drive _ pg).
  - destruct (s !! "selector"); [|done]. destruct (s !! "value"); [|done].
    intros [= <-]. by destruct (drive _ pg).
Qed.

(** C5. If the driver call of step N fails during a replay, after the steps
    before it ran without error, then the run consists of the effects of
    those steps, the log line and the failed call of step N, the report of
    the error, and the cleanup: nothing of a later step is run and the
    browser is closed once.  Every run, failed or not, closes the browser
    exactly once, as its last effect, and a run without error ends with the
    success line and the same cleanup. *)
Theorem replay_failure_cleanup {page : Type}
    (drive : call → page → page * option exn) (inputs : gmap pyval pyval)
    (pre post : list step) (s : step) (pg pg1 pg2 : page)
    (tr : list effect) (c : call) (e : exn) :
  run_steps drive inputs (length (pre ++ s :: post)) 0 pre pg = (tr, pg1, None) →
  step_call inputs s = Some c →
  drive c pg1 = (pg2, Some e) →
  (∃ action, s !! "action" = Some action
     ∧ run_recipe drive inputs (pre ++ s :: post) pg
       = tr ++ [LogStep (length pre + 1) (length (pre ++ s :: post)) action;
                Driver c; LogError e; Sleep 3; Close])
  ∧ closes (run_recipe drive inputs (pre ++ s :: post) pg) = 1
  ∧ (∀ l p, closes (run_recipe drive inputs l p) = 1
            ∧ last (run_recipe drive inputs l p) = Some Close)
  ∧ (∀ l p tr' p', run_steps drive inputs (length l) 0 l p = (tr', p', None) →
       run_recipe drive inputs l p = tr' ++ [LogFinished; Sleep 3; Close]).
Proof.
  intros Hpre Hc Hfail. split_and!.
  - destruct (run_step_call drive inputs (length (pre ++ s :: post)) (length pre)
                s pg1 c Hc) as (action & Ha & Hs).
    rewrite Hfail in Hs. cbn [fst snd] in Hs.
    exists action. split; [done|].
    unfold run_recipe. rewrite run_steps_app, Hpre. cbn [run_steps].
    rewrite Nat.add_0_l, Hs. by rewrite <-app_assoc.
  - apply run_recipe_closes_once.
  - intros l p. split; [apply run_recipe_closes_once|].
    unfold run_recipe.
    destruct (run_steps drive inputs (length l) 0 l p) as [[tr' p'] r].
    change [Sleep 3; Close] with ([Sleep 3] ++ [Close]).
    by rewrite !app_assoc, last_snoc.
  - intros l p tr' p' Hl. unfold run_recipe. by rewrite Hl.
Qed.

(** ** The duration of a wait *)

Local Open Scope Z_scope.

Lemma round_half_even_near n m :
  0 ≤ n → 0 < m → 2 * Z.abs (round_half_even n m * m - n) ≤ m.
Proof.
  intros Hn Hm. unfold round_half_even.
  pose proof (Z.div_mod n m ltac:(lia)) as Hdiv.
  pose proof (Z.mod_pos_bound n m Hm) as Hmod.
  repeat case_match; rewrite ?Z.ltb_lt, ?Z.ltb_ge in *; nia.
Qed.

Lemma round_half_even_nonneg n m : 0 ≤ n → 0 < m → 0 ≤ round_half_even n m.
Proof.
  intros Hn Hm. unfold round_half_even.
  pose proof (Z.div_pos n m Hn Hm).
  repeat case_match; lia.
Qed.

(** The exponent chosen for a quotient by 1000 leaves at least 52 bits
    before the point. *)
Lemma ulp_exponent_1000 n :
  0 < n →
  let e := ulp_exponent n 1000 in
  -62 ≤ e ≤ Z.log2 n - 61
  ∧ (0 ≤ e → 2 ^ 52 * (1000 * 2 ^ e) ≤ n)
  ∧ (e < 0 → 2 ^ 52 * 1000 ≤ n * 2 ^ (- e)).
Proof.
  intros Hn. unfold ulp_exponent.
  change (Z.log2 1000) with 9.
  pose proof (Z.log2_nonneg n) as Hl0.
  destruct (Z.log2_spec n Hn) as [Hlo Hhi].
  set (l := Z.log2 n) in *.
  set (e0 := l - 9 - 53).
  destruct (0 <=? e0) eqn:He0; [apply Z.leb_le in He0|apply Z.leb_gt in He0].
  - assert (2 ^ l = 2 ^ 62 * 2 ^ e0) as Hpow.
    { rewrite <-Z.pow_add_r by lia. f_equal. lia. }
    assert (0 < 2 ^ e0) as Hpos by (apply Z.pow_pos_nonneg; lia).
    destruct (2 ^ 53 <=? n / (1000 * 2 ^ e0)) eqn:Hf;
      [apply Z.leb_le in Hf|apply Z.leb_gt in Hf].
    + rewrite Z.max_l by lia. split; [lia|]. split; [|lia]. intros _.
      rewrite Z.pow_add_r by lia. change (2 ^ 1) with 2.
      pose proof (Z.mul_div_le n (1000 * 2 ^ e0) ltac:(lia)). nia.
    + rewrite Z.max_l by lia. split; [lia|]. split; [|lia]. intros _.
      assert (2 ^ 52 * 1000 ≤ 2 ^ 62) as Hc by (by vm_compute).
      rewrite Hpow in Hlo. nia.
  - assert (2 ^ l * 2 ^ (- e0) = 2 ^ 62) as Hpow.
    { rewrite <-Z.pow_add_r by lia. f_equal. lia. }
    assert (0 < 2 ^ (- e0)) as Hpos by (apply Z.pow_pos_nonneg; lia).
    destruct (2 ^ 53 <=? n * 2 ^ (- e0) / 1000) eqn:Hf;
      [apply Z.leb_le in Hf|apply Z.leb_gt in Hf].
    + rewrite Z.max_l by lia. split; [lia|].
      pose proof (Z.mul_div_le (n * 2 ^ (- e0)) 1000 ltac:(lia)) as Hd.
      assert (2 ^ (- e0) = 2 * 2 ^ (- (e0 + 1))) as Hhalf.
      { replace (- e0) with (1 + - (e0 + 1)) at 1 by lia.
        rewrite Z.pow_add_r by lia. done. }
      split.
      * intros He. assert (e0 = -1) as -> by lia. change (2 ^ (-1 + 1)) with 1.
        change (2 ^ (- -1)) with 2 in *. lia.
      * intros He. rewrite Hhalf in Hd, Hf.
        change (2 ^ 53) with (2 * 2 ^ 52) in Hf. lia.
    + rewrite Z.max_l by lia. split; [lia|]. split; [lia|]. intros _.
      assert (2 ^ l * 2 ^ (- e0) ≤ n * 2 ^ (- e0)) as Hle
        by (apply Z.mul_le_mono_nonneg_r; lia).
      rewrite Hpow in Hle. etrans; [|exact Hle]. by vm_compute.
Qed.

Lemma int_truediv_1000_cases d :
  d ≠ 0 →
  let n := Z.abs d in
  let e := ulp_exponent n 1000 in
  let mantissa := scaled_quotient n 1000 e in
  0 ≤ mantissa
  ∧ (0 ≤ e → 2 ^ 53 * Z.abs (mantissa * (1000 * 2 ^ e) - n) ≤ n)
  ∧ (e < 0 → 2 ^ 53 * Z.abs (mantissa * 1000 - n * 2 ^ (- e)) ≤ n * 2 ^ (- e)).
Proof.
  intros Hd n e mantissa. assert (0 < n) as Hn by (unfold n; lia).
  destruct (ulp_exponent_1000 n Hn) as (He & Hpos & Hneg). fold e in He, Hpos, Hneg.
  unfold mantissa, scaled_quotient.
  destruct (0 <=? e) eqn:Hs; [apply Z.leb_le in Hs|apply Z.leb_gt in Hs].
  - assert (0 < 1000 * 2 ^ e) as HD
      by (apply Z.mul_pos_pos; [lia|apply Z.pow_pos_nonneg; lia]).
    split; [apply round_half_even_nonneg; lia|]. split; [|lia]. intros _.
    pose proof (round_half_even_near n (1000 * 2 ^ e) ltac:(lia) HD) as Hr.
    specialize (Hpos Hs). change (2 ^ 53) with (2 * 2 ^ 52). lia.
  - assert (0 < 2 ^ (- e)) as HD by (apply Z.pow_pos_nonneg; lia).
    split; [apply round_half_even_nonneg; nia|]. split; [lia|]. intros _.
    pose proof (round_half_even_near (n * 2 ^ (- e)) 1000 ltac:(nia) ltac:(lia)) as Hr.
    specialize (Hneg Hs). change (2 ^ 53) with (2 * 2 ^ 52). lia.
Qed.

(** The quotient by 1000 is the dividend over 1000 up to one part in
    [2 ^ 53]. *)
Lemma int_truediv_1000_near d seconds :
  int_truediv d 1000 = Ok seconds →
  (Qabs (seconds * inject_Z 1000 - inject_Z d) * inject_Z (2 ^ 53)
   <= Qabs (inject_Z d))%Q.
Proof.
  unfold int_truediv. destruct (d =? 0) eqn:Hd0.
  { apply Z.eqb_eq in Hd0 as ->. by intros [= <-]. }
  apply Z.eqb_neq in Hd0.
  destruct (int_truediv_1000_cases d Hd0) as (Hm & Hpos & Hneg).
  set (n := Z.abs d) in *. set (e := ulp_exponent n 1000) in *.
  set (mantissa := scaled_quotient n 1000 e) in *.
  destruct (0 <=? e) eqn:Hs; [apply Z.leb_le in Hs|apply Z.leb_gt in Hs].
  - cbn [andb]. destruct (2 ^ 1024 <=? mantissa * 2 ^ e); [done|].
    intros [= <-]. rewrite Qred_correct.
    specialize (Hpos Hs).
    unfold Qle, Qabs, Qmult, Qminus, Qplus, Qopp, inject_Z. cbn [Qnum Qden].
    rewrite !Pos.mul_1_r, !Z.mul_1_r.
    clearbody mantissa e. subst n.
    destruct (Z.lt_trichotomy d 0) as [Hlt|[?|Hgt]]; [|done|].
    + rewrite (Z.sgn_neg d) by done. lia.
    + rewrite (Z.sgn_pos d) by done. lia.
  - cbn [andb]. intros [= <-]. rewrite Qred_correct.
    specialize (Hneg Hs).
    assert (0 < 2 ^ (- e)) as HD by (apply Z.pow_pos_nonneg; lia).
    unfold Qle, Qabs, Qmult, Qminus, Qplus, Qopp, inject_Z. cbn [Qnum Qden].
    rewrite !Pos.mul_1_r, !Z.mul_1_r. rewrite Z2Pos.id by done.
    clearbody mantissa e. subst n.
    destruct (Z.lt_trichotomy d 0) as [Hlt|[?|Hgt]]; [|done|].
    + rewrite (Z.sgn_neg d) by done. nia.
    + rewrite (Z.sgn_pos d) by done. nia.
Qed.

Lemma int_truediv_1000_range d :
  Z.abs d < 2 ^ 1000 → ∃ seconds, int_truediv d 1000 = Ok seconds.
Proof.
  intros Hr. unfold int_truediv. destruct (d =? 0) eqn:Hd0; [by eexists|].
  apply Z.eqb_neq in Hd0.
  destruct (int_truediv_1000_cases d Hd0) as (Hm & Hpos & _).
  set (n := Z.abs d) in *. set (e := ulp_exponent n 1000) in *.
  set (mantissa := scaled_quotient n 1000 e) in *.
  destruct (0 <=? e) eqn:Hs; [apply Z.leb_le in Hs|by eexists].
  cbn [andb]. destruct (2 ^ 1024 <=? mantissa * 2 ^ e) eqn:Ho; [|by eexists].
  apply Z.leb_le in Ho. specialize (Hpos Hs).
  assert (0 < 2 ^ e) as HD by (apply Z.pow_pos_nonneg; lia).
  assert (2 ^ 1000 < 2 ^ 1024) as Hc by (by vm_compute).
  assert (0 ≤ 2 ^ 53 * Z.abs (mantissa * (1000 * 2 ^ e) - n)) by lia.
  assert (1 ≤ 2 ^ 53) by (by vm_compute).
  nia.
Qed.

Local Close Scope Z_scope.

(** C6, as the code has it.  A wait step suspends for its [delay] field
    taken as milliseconds, and for one second when it has no such field,
    then the run goes on with the next step.  The duration is the quotient
    of an integer delay by 1000 as a double: the delay over 1000 up to one
    part in [2 ^ 53], for every delay below [2 ^ 1000]; a delay whose
    quotient is beyond the doubles, such as [10 ^ 400], raises
    [OverflowError], which ends the run. *)
Theorem wait_step_delay {page : Type}
    (drive : call → page → page * option exn) (inputs : gmap pyval pyval)
    (total i : nat) (s : step) (rest : list step) (pg : page) :
  s !! "action" = Some (PStr "wait") →
  (∀ d seconds, s !! "delay" = Some (PInt d) → int_truediv d 1000 = Ok seconds →
     run_steps drive inputs total i (s :: rest) pg
     = let '(tr, pg', r) := run_steps drive inputs total (S i) rest pg in
       ([LogStep (i + 1) total (PStr "wait"); Sleep seconds] ++ tr, pg', r))
  ∧ (∀ d e, s !! "delay" = Some (PInt d) → int_truediv d 1000 = Raise e →
     run_steps drive inputs total i (s :: rest) pg
     = ([LogStep (i + 1) total (PStr "wait")], pg, Some e))
  ∧ (s !! "delay" = None →
     run_steps drive inputs total i (s :: rest) pg
     = let '(tr, pg', r) := run_steps drive inputs total (S i) rest pg in
       ([LogStep (i + 1) total (PStr "wait"); Sleep 1] ++ tr, pg', r))
  ∧ (∀ d, (Z.abs d < 2 ^ 1000)%Z → ∃ seconds, int_truediv d 1000 = Ok seconds)
  ∧ (∀ d seconds, int_truediv d 1000 = Ok seconds →
       (Qabs (seconds * inject_Z 1000 - inject_Z d) * inject_Z (2 ^ 53)
        <= Qabs (inject_Z d))%Q)
  ∧ int_truediv (10 ^ 400) 1000 = Raise OverflowError.
Proof.
  intros Ha.
  assert (∀ d, s !! "delay" = Some (PInt d) →
               wait_seconds s = int_truediv d 1000) as Hint
    by (intros d Hd; unfold wait_seconds; by rewrite Hd).
  assert (s !! "delay" = None → wait_seconds s = Ok 1%Q) as Hnone
    by (intros Hd; unfold wait_seconds; rewrite Hd; by vm_compute).
  assert (run_step drive inputs total i s pg
          = match wait_seconds s with
            | Ok seconds =>
                ([LogStep (i + 1) total (PStr "wait")] ++ [Sleep seconds],
                 pg, None)
            | Raise e => ([LogStep (i + 1) total (PStr "wait")], pg, Some e)
            end) as Hstep.
  { unfold run_step. rewrite Ha. by rewrite !decide_False, decide_True by done. }
  split_and!.
  - intros d seconds Hd Hq. cbn [run_steps]. by rewrite Hstep, (Hint d Hd), Hq.
  - intros d e Hd Hq. cbn [run_steps]. by rewrite Hstep, (Hint d Hd), Hq.
  - intros Hd. cbn [run_steps]. by rewrite Hstep, (Hnone Hd).
  - apply int_truediv_1000_range.
  - apply int_truediv_1000_near.
  - by vm_compute.
Qed.

(** ** The example session *)

(** The end-to-end example: the three input events collapse to one fill
    carrying the last value, between the navigation and the click. *)
Example example_stream_recorded :
  recorded_steps quiet_console fatal_callbacks example_stream = Ok example_recipe.
Proof. by vm_compute. Qed.

(** A prompt whose message the console takes for a closing tag ends the
    recording, whatever the driver does with exceptions; the recorder has
    its step by then. *)
Example prompt_markup_ends_recording :
  let evs := [("t0", StartUrl "https://example.test");
              ("t1", PromptCommand "[/b]")] in
  recorded_steps strict_console lenient_callbacks evs = Raise MarkupError
  ∧ steps (flush_pending (feed strict_console evs recorder_init))
    = raw_steps evs.
Proof. split; by vm_compute. Qed.

Example example_placeholders :
  placeholder_set
    [fill_step "t1" "#greeting" "Hello {name}, your code is {otp}";
     fill_step "t2" "#subject" "no braces here";
     fill_step "t3" "#footer" "Bye {name}"]
  = {["name"; "otp"]}.
Proof. by vm_compute. Qed.

(** The non-fill steps of the example session come out of the batch pass as
    they went in. *)
Lemma collapse_fills_keeps_non_fill_example :
  _collapse_fills (raw_steps example_stream) = Ok example_recipe
  ∧ List.filter non_fill example_recipe
    = List.filter non_fill (raw_steps example_stream).
Proof.
  assert (_collapse_fills (raw_steps example_stream) = Ok example_recipe) as H.
  { vm_compute. reflexivity. }
  split; [exact H|]. exact (collapse_fills_keeps_non_fill _ _ H).
Defined.

(** The block of three fills of the example session leaves one fill. *)
Lemma collapse_fills_blocks_example :
  _collapse_fills (raw_steps example_stream) = Ok example_recipe
  ∧ no_adjacent_fills example_recipe
  ∧ ∃ before kept after,
      example_recipe = before ++ kept ++ after
      ∧ _collapse_fills (take 1 (raw_steps example_stream)) = Ok before
      ∧ Forall (λ f, is_fill f = true) kept
      ∧ NoDup (fill_selector <$> kept)
      ∧ ∀ k f, f ∈ kept ∧ fill_on k f
               ↔ last (filter (fill_on k) (take 3 (drop 1 (raw_steps example_stream))))
                 = Some f.
Proof.
  assert (_collapse_fills (raw_steps example_stream) = Ok example_recipe) as H.
  { vm_compute. reflexivity. }
  destruct (collapse_fills_blocks _ _ H) as [Hadj Hblocks].
  split_and!; [exact H|exact Hadj|].
  apply (Hblocks (take 1 (raw_steps example_stream))
                 (take 3 (drop 1 (raw_steps example_stream)))
                 (drop 4 (raw_steps example_stream))).
  - reflexivity.
  - split_and!.
    + repeat constructor.
    + intros s [= <-]. reflexivity.
    + intros s [= <-]. reflexivity.
Defined.

(** C3 as stated fails on interleaved fills: the run made of the first fill
    on [#a] leaves no fill carrying its value, the later fill on [#a] takes
    its place. *)
Lemma interleaved_fills_merged :
  _collapse_fills interleaved_fills
  = Ok [fill_step "t3" "#a" "3"; fill_step "t2" "#b" "2"]
  ∧ ¬ runs_keep_last_value interleaved_fills
        [fill_step "t3" "#a" "3"; fill_step "t2" "#b" "2"].
Proof.
  split; [by vm_compute|]. intros Hruns.
  destruct (Hruns (PStr "#a") [] [fill_step "t1" "#a" "1"]
              [fill_step "t2" "#b" "2"; fill_step "t3" "#a" "3"]
              (fill_step "t1" "#a" "1")) as (g & Hg & _ & Hv).
  - reflexivity.
  - split_and!; [done| |done|].
    + repeat constructor.
    + intros s [= <-] [_ Hs]. vm_compute in Hs. discriminate Hs.
  - reflexivity.
  - apply elem_of_cons in Hg as [->|Hg].
    { vm_compute in Hv. discriminate Hv. }
    apply list_elem_of_singleton in Hg as ->.
    vm_compute in Hv. discriminate Hv.
Qed.

(** C7 as stated fails on nested braces: in ["{{name}}"] the token [name]
    stands between braces, yet the pattern matches from the first opening
    brace and the placeholder extracted is ["{name"]. *)
Lemma nested_braces_token_missed :
  delimited "name" "{{name}}"
  ∧ re_findall "{{name}}" = ["{name"]
  ∧ _extract_placeholders [fill_step "t1" "#q" "{{name}}"] = ["{name"]
  ∧ "name" ∉ _extract_placeholders [fill_step "t1" "#q" "{{name}}"].
Proof.
  assert (_extract_placeholders [fill_step "t1" "#q" "{{name}}"] = ["{name"]) as H
    by (by vm_compute).
  split_and!; [|by vm_compute|exact H|].
  - split_and!; [done|done|]. by exists "{", "}".
  - rewrite H. by intros [=]%list_elem_of_singleton.
Qed.

(** C4, where the code departs from it.  A fill step without a recorded
    value gets a row in the input dialog, which shows it as empty, so that
    its selector is in the override map after Run; yet the replay reads
    [step["value"]] as the default argument of [inputs.get] before the map
    is consulted: [KeyError], the driver is not asked to fill anything with
    the entry of the map, and the run ends. *)
Theorem fill_override_without_value :
  let s : step := <["action" := PStr "fill"]> (<["selector" := PStr "#q"]> ∅) in
  let shown := λ v, match v with PStr text => text | _ => "" end in
  ask_for_inputs shown (λ _ _, "typed") [s] true
  = Ok {[PStr "#q" := PStr "typed"]}
  ∧ run_recipe steady_drive {[PStr "#q" := PStr "typed"]} [s] ()
    = [LogStep 1 1 (PStr "fill"); LogError (KeyError "value"); Sleep 3; Close]
  ∧ run_recipe steady_drive {[PStr "#q" := PStr "typed"]}
      [<["value" := PStr ""]> s] ()
    = [LogStep 1 1 (PStr "fill"); Driver (Fill (PStr "#q") (PStr "typed"));
       LogFinished; Sleep 3; Close].
Proof. intros s shown. split_and!; by vm_compute. Qed.

(** Replaying the fill of the example recipe with the override
    [{"#q": "override-value"}] fills [#q] with the override. *)
Lemma fill_value_override_example :
  fill_step "t3" "#q" "abc" !! "action" = Some (PStr "fill")
  ∧ fill_step "t3" "#q" "abc" !! "selector" = Some (PStr "#q")
  ∧ fill_step "t3" "#q" "abc" !! "value" = Some (PStr "abc")
  ∧ (run_step steady_drive {[PStr "#q" := PStr "override-value"]} 3 1
       (fill_step "t3" "#q" "abc") ()).1.1
    = [LogStep 2 3 (PStr "fill"); Driver (Fill (PStr "#q") (PStr "override-value"))]
  ∧ (run_step steady_drive ∅ 3 1 (fill_step "t3" "#q" "abc") ()).1.1
    = [LogStep 2 3 (PStr "fill"); Driver (Fill (PStr "#q") (PStr "abc"))].
Proof.
  assert (fill_step "t3" "#q" "abc" !! "action" = Some (PStr "fill")) as Ha
    by reflexivity.
  assert (fill_step "t3" "#q" "abc" !! "selector" = Some (PStr "#q")) as Hs
    by reflexivity.
  assert (fill_step "t3" "#q" "abc" !! "value" = Some (PStr "abc")) as Hv
    by reflexivity.
  destruct (fill_value_override steady_drive {[PStr "#q" := PStr "override-value"]}
              3 1 _ () _ _ Ha Hs Hv) as (Hover & _ & Hempty).
  split_and!; [exact Ha|exact Hs|exact Hv| |exact Hempty].
  apply (Hover (PStr "override-value")). reflexivity.
Defined.

(** Replaying the example recipe, followed by one more navigation, on a page
    where the click on [#submit] fails: the navigation after it is not run,
    the error is logged and the browser closed once. *)
Lemma replay_failure_cleanup_example :
  let click := make_step "t4" "click"
                 (event_data (RecordClick (PStr "#submit") (PStr "Submit"))) in
  let after := make_step "t5" "navigate"
                 (event_data (Navigated (PStr "https://example.test/done"))) in
  run_steps failing_drive ∅ 4 0 (take 2 example_recipe) ()
  = ([LogStep 1 4 (PStr "navigate"); Driver (Goto (PStr "https://example.test"));
      LogStep 2 4 (PStr "fill"); Driver (Fill (PStr "#q") (PStr "abc"))], (), None)
  ∧ step_call ∅ click = Some (Click (PStr "#submit"))
  ∧ failing_drive (Click (PStr "#submit")) ()
    = ((), Some (DriverError "no element matches #submit"))
  ∧ run_recipe failing_drive ∅ (example_recipe ++ [after]) ()
    = [LogStep 1 4 (PStr "navigate"); Driver (Goto (PStr "https://example.test"));
       LogStep 2 4 (PStr "fill"); Driver (Fill (PStr "#q") (PStr "abc"));
       LogStep 3 4 (PStr "click"); Driver (Click (PStr "#submit"));
       LogError (DriverError "no element matches #submit"); Sleep 3; Close]
  ∧ closes (run_recipe failing_drive ∅ (example_recipe ++ [after]) ()) = 1.
Proof.
  intros click after.
  destruct (replay_failure_cleanup failing_drive ∅ (take 2 example_recipe) [after]
              click () () ()
              [LogStep 1 4 (PStr "navigate"); Driver (Goto (PStr "https://example.test"));
               LogStep 2 4 (PStr "fill"); Driver (Fill (PStr "#q") (PStr "abc"))]
              (Click (PStr "#submit"))
              (DriverError "no element matches #submit"))
    as ((action & Ha & Hrun) & Hclose & _).
  - reflexivity.
  - reflexivity.
  - reflexivity.
  - split_and!; [reflexivity|reflexivity|reflexivity| |exact Hclose].
    assert (action = PStr "click") as -> by (vm_compute in Ha; congruence).
    exact Hrun.
Defined.

(** A wait step with [delay] 500 sleeps half a second. *)
Lemma wait_step_delay_example :
  wait_delay_step !! "action" = Some (PStr "wait")
  ∧ int_truediv 500 1000 = Ok (1 # 2)%Q
  ∧ run_steps steady_drive ∅ 1 0 [wait_delay_step] ()
    = ([LogStep 1 1 (PStr "wait"); Sleep (1 # 2)], (), None).
Proof.
  assert (wait_delay_step !! "action" = Some (PStr "wait")) as Ha by reflexivity.
  assert (int_truediv 500 1000 = Ok (1 # 2)%Q) as Hq by (vm_compute; reflexivity).
  split_and!; [exact Ha|exact Hq|].
  apply (proj1 (wait_step_delay steady_drive ∅ 1 0 wait_delay_step [] () Ha)
           500%Z (1 # 2)%Q); [reflexivity|exact Hq].
Defined.

(** C6 as stated fails on a wait step that carries its delay in a field
    named [delayMs]: the runner does not read that field and sleeps its
    default of one second, not the half second of the step. *)
Lemma wait_delayMs_ignored :
  wait_delayMs_step !! "action" = Some (PStr "wait")
  ∧ wait_delayMs_step !! "delayMs" = Some (PInt 500)
  ∧ run_steps steady_drive ∅ 1 0 [wait_delayMs_step] ()
    = ([LogStep 1 1 (PStr "wait"); Sleep 1], (), None)
  ∧ int_truediv 500 1000 = Ok (1 # 2)%Q
  ∧ ¬ (1 == 1 # 2)%Q.
Proof. split_and!; [reflexivity| reflexivity| by vm_compute| by vm_compute|]. by vm_compute. Qed.

(** Past the id: a span without attributes, second child of a [div] with the
    unique id [root], in a document where only [#root] matches once. *)
Example parent_chain_selector :
  getUniqueSelector
    (λ sel, Some (if decide (sel = "#root") then 1 else 2)) id id
    ascii_split_spaces
    (Some (Element "" None None None "note  wide" "span"
             (Some (Element "root" None None None "" "div" None 0)) 1))
  = Ok (Some "#root > span:nth-child(2)").
Proof. by vm_compute. Qed.

(** An input with the unique id [q] and the unique name [query] gets [#q]. *)
Lemma id_selector_first_example :
  el_id example_element ≠ EmptyString
  ∧ getUniqueSelector (λ _, Some 1) id id ascii_split_spaces (Some example_element) = Ok (Some "#q")
  ∧ getUniqueSelector (λ _, Some 1) id id ascii_split_spaces (Some example_element)
    ≠ Ok (Some (name_selector "query")).
Proof.
  assert (el_id example_element ≠ EmptyString) as Hid by done.
  destruct (id_selector_first (λ _, Some 1) id id ascii_split_spaces example_element Hid eq_refl)
    as [Hsel Hname].
  split_and!; [exact Hid|exact Hsel|exact (Hname "query")].
Defined.

(** * Further properties of the recorder and the runner *)

(** ** The batch pass: what it keeps, where, and when it raises *)

Lemma dict_set_values_submseteq {V : Type} (d : odict V) k v :
  dict_values (dict_set d k v) ⊆+ v :: dict_values d.
Proof.
  unfold dict_values. induction d as [|[k0 v0] d IH]; cbn [dict_set]; [done|].
  destruct (decide (k0 = k)) as [->|Hne]; cbn.
  - apply submseteq_skip. by apply submseteq_cons.
  - etrans; [apply submseteq_skip, IH|].
    apply Permutation_submseteq, Permutation_swap.
Qed.

Lemma collapse_loop_submseteq l : ∀ c d c' d',
  collapse_loop l (c, d) = Ok (c', d') →
  c' ++ dict_values d' ⊆+ (c ++ dict_values d) ++ l.
Proof.
  induction l as [|s l IH]; intros c d c' d'.
  - intros [= <- <-]. by rewrite app_nil_r.
  - rewrite collapse_loop_cons.
    destruct (collapse_body (c, d) s) as [[c1 d1]|e] eqn:Hb; [|done].
    cbn [mbind result_bind]. intros Hl%IH. etrans; [exact Hl|].
    apply collapse_body_Ok in Hb as [(k & Hk & [= -> ->])|(_ & _ & [= -> ->])].
    + rewrite <-!app_assoc. apply submseteq_app; [done|].
      etrans; [|apply Permutation_submseteq, Permutation_middle].
      change (s :: dict_values d ++ l) with ((s :: dict_values d) ++ l).
      apply submseteq_app; [apply dict_set_values_submseteq|done].
    + cbn. by rewrite app_nil_r, <-!app_assoc.
Qed.

(** X1. The batch pass invents and duplicates nothing: its output is, up to
    order, a sub-list of its input, so every output step is an input step
    and the output is no longer than the input. *)
Theorem collapse_fills_submseteq (input out : list step) :
  _collapse_fills input = Ok out →
  out ⊆+ input ∧ (∀ s, s ∈ out → s ∈ input) ∧ (length out ≤ length input)%nat.
Proof.
  intros (c & d & Hl & ->)%collapse_fills_Ok.
  apply collapse_loop_submseteq in Hl. cbn in Hl.
  split_and!; [done| |by apply submseteq_length].
  intros s Hs. by eapply elem_of_submseteq.
Qed.

Lemma collapse_fills_submseteq_example :
  _collapse_fills (raw_steps example_stream) = Ok example_recipe
  ∧ example_recipe ⊆+ raw_steps example_stream
  ∧ (length example_recipe ≤ length (raw_steps example_stream))%nat.
Proof.
  assert (_collapse_fills (raw_steps example_stream) = Ok example_recipe) as H.
  { vm_compute. reflexivity. }
  destruct (collapse_fills_submseteq _ _ H) as (Hsub & _ & Hlen).
  split_and!; [exact H|exact Hsub|exact Hlen].
Defined.

(** The collapsed prefix is carried along by the loop untouched. *)
Lemma collapse_loop_frame c0 l : ∀ c d,
  collapse_loop l (c0 ++ c, d)
  = collapse_loop l (c, d) ≫= λ st, mret (c0 ++ st.1, st.2).
Proof.
  induction l as [|s l IH]; intros c d; [done|].
  rewrite !collapse_loop_cons.
  destruct (collapse_body (c, d) s) as [[c1 d1]|e] eqn:Hb.
  - apply collapse_body_Ok in Hb as [(k & Hk & [= -> ->])|(Ha & Hnf & [= -> ->])].
    + rewrite (collapse_body_fill _ _ _ k) by done. cbn [mbind result_bind].
      apply IH.
    + rewrite collapse_body_other by done. cbn [mbind result_bind].
      replace (((c0 ++ c) ++ dict_values d) ++ [s])
        with (c0 ++ ((c ++ dict_values d) ++ [s])) by (by rewrite !app_assoc).
      apply IH.
  - assert (collapse_body (c0 ++ c, d) s = Raise e) as ->; [|done].
    revert Hb. unfold collapse_body, getitem, mbind, result_bind.
    destruct (s !! "action") as [a|]; [|done].
    destruct (decide (a = PStr "fill")); [|done].
    by destruct (s !! "selector").
Qed.

(** X2. A non-fill step cuts the input in two for the batch pass: the
    output is the output for what precedes the step, the step itself, and
    the output for what follows it; an exception on either side is the
    exception of the whole. *)
Theorem collapse_fills_split (l1 l2 : list step) (n : step) :
  is_Some (n !! "action") → non_fill n = true →
  _collapse_fills (l1 ++ n :: l2)
  = o1 ← _collapse_fills l1; o2 ← _collapse_fills l2; mret (o1 ++ n :: o2).
Proof.
  intros Ha Hnf. unfold _collapse_fills.
  rewrite collapse_loop_app.
  destruct (collapse_loop l1 ([], [])) as [[c1 d1]|e]; [|done].
  cbn [mbind result_bind mret result_ret].
  rewrite collapse_loop_cons, collapse_body_other by done.
  cbn [mbind result_bind].
  rewrite <-(app_nil_r ((c1 ++ dict_values d1) ++ [n])), collapse_loop_frame.
  unfold odict. destruct (collapse_loop l2 ([], [])) as [[c2 d2]|e]; [|done].
  cbn. by rewrite <-!app_assoc.
Qed.

Lemma collapse_fills_split_example :
  let click := make_step "t4" "click"
                 (event_data (RecordClick (PStr "#submit") (PStr "Submit"))) in
  is_Some (click !! "action") ∧ non_fill click = true
  ∧ _collapse_fills (interleaved_fills ++ click :: interleaved_fills)
    = Ok ([fill_step "t3" "#a" "3"; fill_step "t2" "#b" "2"] ++ click
          :: [fill_step "t3" "#a" "3"; fill_step "t2" "#b" "2"]).
Proof.
  intros click.
  assert (is_Some (click !! "action")) as Ha by (by eexists).
  assert (non_fill click = true) as Hnf by reflexivity.
  split_and!; [exact Ha|exact Hnf|].
  rewrite (collapse_fills_split interleaved_fills interleaved_fills click Ha Hnf).
  reflexivity.
Defined.

Lemma fill_selector_Some s k : fill_selector s = Some k ↔ fill_on k s.
Proof.
  unfold fill_selector, fill_on. case_decide; [|split; [done|by intros [? _]]].
  split; [done|by intros [_ ?]].
Qed.

(** X3. Fills on pairwise distinct selectors pass the batch pass unchanged
    and in their order. *)
Theorem collapse_fills_distinct (l : list step) :
  Forall (λ s, is_Some (fill_selector s)) l →
  NoDup (fill_selector <$> l) →
  _collapse_fills l = Ok l.
Proof.
  intros Hfills Hnd.
  set (d := (λ s, (default PNone (fill_selector s), s)) <$> l).
  assert (dict_values d = l) as Hv.
  { unfold dict_values, d. clear. induction l as [|s l IH].
    - reflexivity.
    - rewrite !fmap_cons. cbn [snd]. by rewrite IH. }
  assert (pending_ok d) as Hd.
  { split.
    - unfold dict_keys, d. rewrite <-list_fmap_compose.
      apply (NoDup_fmap_1 Some). rewrite <-list_fmap_compose.
      erewrite Forall_fmap_ext_1; [exact Hnd|].
      eapply Forall_impl; [exact Hfills|]. intros s [k Hk]. cbn. by rewrite Hk.
    - unfold d. apply Forall_fmap. eapply Forall_impl; [exact Hfills|].
      intros s [k Hk]. cbn. rewrite Hk. by apply fill_selector_Some. }
  unfold _collapse_fills. rewrite <-Hv at 1.
  rewrite collapse_loop_flush by done. cbn. by rewrite Hv.
Qed.

Lemma collapse_fills_distinct_example :
  let l := [fill_step "t1" "#b" "1"; fill_step "t2" "#a" "2"; fill_step "t3" "#c" "3"] in
  Forall (λ s, is_Some (fill_selector s)) l
  ∧ NoDup (fill_selector <$> l)
  ∧ _collapse_fills l = Ok l.
Proof.
  intros l.
  assert (Forall (λ s, is_Some (fill_selector s)) l) as Hf.
  { repeat constructor; by eexists. }
  assert (NoDup (fill_selector <$> l)) as Hnd.
  { apply (bool_decide_unpack _). by vm_compute. }
  split_and!; [exact Hf|exact Hnd|exact (collapse_fills_distinct l Hf Hnd)].
Defined.

Lemma collapse_body_Raise c d s e :
  collapse_body (c, d) s = Raise e →
  ¬ well_formed s ∧ (e = KeyError "action" ∨ e = KeyError "selector").
Proof.
  unfold collapse_body, getitem, mbind, result_bind, well_formed.
  destruct (s !! "action") as [a|] eqn:Ha.
  - destruct (decide (a = PStr "fill")) as [->|Hne]; [|done].
    destruct (s !! "selector") as [k|] eqn:Hs; [done|].
    intros [= <-]. split; [|by right]. intros [_ Hsel].
    destruct (Hsel eq_refl) as [? ?]. done.
  - intros [= <-]. split; [|by left]. by intros [[? ?] _].
Qed.

Lemma collapse_loop_Raise l : ∀ st e,
  collapse_loop l st = Raise e →
  ¬ Forall well_formed l ∧ (e = KeyError "action" ∨ e = KeyError "selector").
Proof.
  induction l as [|s l IH]; intros [c d] e; [done|].
  rewrite collapse_loop_cons.
  destruct (collapse_body (c, d) s) as [st1|e1] eqn:Hb.
  - cbn [mbind result_bind]. intros [Hl He]%IH. split; [|done].
    intros [_ ?]%Forall_cons. done.
  - intros [= <-]. apply collapse_body_Raise in Hb as [Hs He].
    split; [|done]. by intros [? _]%Forall_cons.
Qed.

Lemma collapse_loop_Ok_well_formed l : ∀ st st',
  collapse_loop l st = Ok st' → Forall well_formed l.
Proof.
  induction l as [|s l IH]; intros [c0 d0] st'; [done|].
  rewrite collapse_loop_cons.
  destruct (collapse_body (c0, d0) s) as [st1|e1] eqn:Hb; [|done].
  cbn [mbind result_bind]. intros Hl. apply Forall_cons. split.
  - apply collapse_body_Ok in Hb as [(k & [Ha Hs] & _)|(Ha & Hnf & _)].
    + split; [by eexists|]. intros _. by eexists.
    + split; [done|]. intros Hfill. unfold non_fill, is_fill in Hnf.
      by rewrite bool_decide_eq_true_2 in Hnf.
  - by eapply IH.
Qed.

(** X4. The batch pass returns exactly on the step lists in which every
    step has an action and every fill has a selector; on any other list it
    raises the [KeyError] of the missing key, [action] or [selector]. *)
Theorem collapse_fills_raises (l : list step) :
  ((∃ out, _collapse_fills l = Ok out) ↔ Forall well_formed l)
  ∧ ∀ e, _collapse_fills l = Raise e →
         e = KeyError "action" ∨ e = KeyError "selector".
Proof.
  split.
  - split; [|apply collapse_fills_total].
    intros [out (c & d & Hl & _)%collapse_fills_Ok].
    by eapply collapse_loop_Ok_well_formed.
  - intros e. unfold _collapse_fills.
    destruct (collapse_loop l ([], [])) as [[c d]|e'] eqn:Hloop; [done|].
    intros [= <-]. by apply collapse_loop_Raise in Hloop as [_ ?].
Qed.

(** ** The order of the kept fills *)

Lemma filter_comm_neq (P : pyval → Prop) `{!∀ y, Decision (P y)} x (l : list pyval) :
  filter (λ y, y ≠ x) (filter P l) = filter P (filter (λ y, y ≠ x) l).
Proof.
  rewrite !list_filter_filter. apply list_filter_iff. intros y. tauto.
Qed.

Lemma first_occurrences_filter (P : pyval → Prop) `{!∀ y, Decision (P y)} l :
  first_occurrences (filter P l) = filter P (first_occurrences l).
Proof.
  induction l as [|x l IH]; [done|]. cbn [first_occurrences].
  destruct (decide (P x)) as [HP|HP].
  - rewrite !filter_cons_True by done. cbn [first_occurrences].
    by rewrite IH, filter_comm_neq.
  - rewrite !filter_cons_False by done. rewrite IH, list_filter_filter.
    apply list_filter_iff. intros y. split; [|tauto].
    intros Hy. split; [done|]. by intros ->.
Qed.

Lemma filter_all (P : pyval → Prop) `{!∀ y, Decision (P y)} (l : list pyval) :
  Forall P l → filter P l = l.
Proof.
  induction 1 as [|x l Hx _ IH]; [done|].
  by rewrite filter_cons_True, IH.
Qed.

Lemma first_occurrences_NoDup l : NoDup l → first_occurrences l = l.
Proof.
  induction 1 as [|x l Hx _ IH]; [done|]. cbn [first_occurrences].
  rewrite IH. f_equal. apply filter_all, Forall_forall. by intros y Hy ->.
Qed.

Lemma first_occurrences_seen x l1 l2 :
  x ∈ l1 → first_occurrences (l1 ++ x :: l2) = first_occurrences (l1 ++ l2).
Proof.
  induction l1 as [|y l1 IH]; [by intros ?%elem_of_nil|].
  intros Hx. cbn [app first_occurrences]. f_equal.
  destruct (decide (y = x)) as [->|Hne].
  - rewrite <-!first_occurrences_filter. f_equal.
    rewrite !filter_app, filter_cons_False; [done|]. by intros ?.
  - apply elem_of_cons in Hx as [?|Hx]; [done|]. by rewrite IH.
Qed.

Lemma collapse_loop_keys block : ∀ c d c' d',
  Forall (λ s, is_fill s = true) block → pending_ok d →
  collapse_loop block (c, d) = Ok (c', d') →
  dict_keys d' = first_occurrences (dict_keys d ++ fill_selectors block).
Proof.
  induction block as [|s block IH]; intros c d c' d' Hfills Hd.
  - intros [= <- <-]. rewrite app_nil_r.
    symmetry. apply first_occurrences_NoDup, Hd.
  - apply Forall_cons in Hfills as [Hs Hfills]. rewrite collapse_loop_cons.
    destruct (collapse_body (c, d) s) as [[c1 d1]|e] eqn:Hb; [|done].
    cbn [mbind result_bind]. intros Hl.
    apply collapse_body_Ok in Hb as [(k & Hk & [= -> ->])|(_ & Hnf & _)].
    2:{ unfold non_fill in Hnf. by rewrite Hs in Hnf. }
    apply IH in Hl; [|done|by apply pending_ok_set]. rewrite Hl.
    unfold fill_selectors. cbn [omap list_omap].
    rewrite (proj2 (fill_selector_Some s k) Hk), dict_keys_set.
    case_decide as Hin.
    + by rewrite first_occurrences_seen.
    + by rewrite <-app_assoc.
Qed.

Lemma pending_values_fill_selectors d :
  pending_ok d → fill_selectors (dict_values d) = dict_keys d.
Proof.
  intros [_ Hall]. unfold fill_selectors, dict_values, dict_keys.
  induction Hall as [|[k s] d' Hk _ IH]; [done|].
  rewrite !fmap_cons. cbn [omap list_omap fst snd] in *.
  rewrite (proj2 (fill_selector_Some s k) Hk). by rewrite IH.
Qed.

(** X5. Among consecutive fills the batch pass keeps one fill per selector
    at the place where that selector was filled first: the selectors of the
    output are those of the input in the order of their first occurrence. *)
Theorem collapse_fills_first_occurrence (block out : list step) :
  Forall (λ s, is_fill s = true) block →
  _collapse_fills block = Ok out →
  fill_selectors out = first_occurrences (fill_selectors block)
  ∧ length out = length (first_occurrences (fill_selectors block)).
Proof.
  intros Hfills (c & d & Hl & ->)%collapse_fills_Ok.
  pose proof Hl as Hl'.
  apply collapse_loop_block in Hl' as (-> & Hd & _); [|done|apply pending_ok_nil].
  apply collapse_loop_keys in Hl; [|done|apply pending_ok_nil].
  change (dict_keys (@nil (pyval * step)) ++ fill_selectors block)
    with (fill_selectors block) in Hl.
  cbn [app].
  pose proof (pending_values_fill_selectors d Hd) as Hsel.
  split; [by rewrite Hsel|].
  rewrite <-Hl. unfold dict_values, dict_keys. by rewrite !length_fmap.
Qed.

Lemma collapse_fills_first_occurrence_example :
  Forall (λ s, is_fill s = true) interleaved_fills
  ∧ _collapse_fills interleaved_fills
    = Ok [fill_step "t3" "#a" "3"; fill_step "t2" "#b" "2"]
  ∧ fill_selectors [fill_step "t3" "#a" "3"; fill_step "t2" "#b" "2"]
    = first_occurrences (fill_selectors interleaved_fills).
Proof.
  assert (Forall (λ s, is_fill s = true) interleaved_fills) as Hf
    by repeat constructor.
  assert (_collapse_fills interleaved_fills
          = Ok [fill_step "t3" "#a" "3"; fill_step "t2" "#b" "2"]) as H
    by (by vm_compute).
  split_and!; [exact Hf|exact H|].
  exact (proj1 (collapse_fills_first_occurrence _ _ Hf H)).
Defined.

(** ** The second pass at save time, and the placeholders it leaves *)

(** X6. On the steps that the live pass hands to [_save_recipe] the batch
    pass changes nothing: whenever the recording reaches the save, the steps
    saved are the steps of the live pass, and the two counts of the closing
    message are equal; a recording that an exception ended saves nothing.
    On a console that prints every line of the stream the save is
    reached. *)
Theorem save_pass_keeps_live
    (console_print : console_line → option exn)
    (callback_survives : string * event → exn → bool) (evs : stream) :
  recorded_steps console_print callback_survives evs
  = live_pass console_print callback_survives evs
  ∧ (∀ live, live_pass console_print callback_survives evs = Ok live →
       _collapse_fills live = Ok live
       ∧ recorded_steps console_print callback_survives evs = Ok live)
  ∧ (prints_all console_print evs →
     ∃ out, live_pass console_print callback_survives evs = Ok out
            ∧ recorded_steps console_print callback_survives evs = Ok out).
Proof.
  split_and!.
  - apply recorded_steps_live.
  - intros live Hl. split; [|by rewrite recorded_steps_live].
    apply live_pass_collapse in Hl. by eapply collapse_fills_idem_Ok.
  - intros Hp. eexists. rewrite recorded_steps_live.
    split; by apply live_pass_prints_all.
Qed.




(** ** Selector synthesis beyond the id rule *)

Section SelectorProofs.
Variable querySelectorAll : string → option nat.
Variable CSS_escape : string → string.
Variable toLowerCase : string → string.
Variable split_spaces : string → list string.





End SelectorProofs.



(** An icon of an SVG drawing without id, name, label and placeholder: its
    class is an object without [split], and rule 5 throws [TypeError]
    whatever the document holds. *)
Example svg_icon_throws (querySelectorAll : string → option nat) :
  getUniqueSelector querySelectorAll id id ascii_split_spaces (Some svg_icon)
  = Raise TypeError.
Proof. done. Qed.

Lemma by_attribute_Ok querySelectorAll attr v otherwise sel :
  by_attribute querySelectorAll attr v otherwise = Ok (Some sel) →
  querySelectorAll sel = Some 1 ∨ otherwise = Ok (Some sel).
Proof.
  unfold by_attribute, unique. destruct (truthy v) as [a|]; [|by right].
  destruct (querySelectorAll _) as [n|] eqn:Hq; [|done].
  cbn [mbind result_bind]. case_bool_decide as Hn; [|by right].
  intros [= <-]. left. by rewrite Hq, Hn.
Qed.

(** X9. A synthesized selector that is not one of the two structural
    fallbacks matched exactly one element when it was chosen: the result is
    a selector that matches once, or the parent's selector extended by the
    tag and the one-based child position, or the bare lower-case tag. *)
Theorem selector_unique_or_structural
    (querySelectorAll : string → option nat) (CSS_escape toLowerCase : string → string)
    (split_spaces : string → list string)
    (el : element) (sel : string) :
  getUniqueSelector querySelectorAll CSS_escape toLowerCase split_spaces (Some el)
    = Ok (Some sel) →
  querySelectorAll sel = Some 1
  ∨ sel = toLowerCase (el_tagName el)
  ∨ ∃ parent p,
      el_parentElement el = Some parent
      ∧ getUniqueSelector querySelectorAll CSS_escape toLowerCase split_spaces (Some parent)
        = Ok (Some p)
      ∧ sel = child_selector p (toLowerCase (el_tagName el)) (el_index el).
Proof.
  destruct el as [i n a ph cl tg parent ix].
  cbn [getUniqueSelector getUniqueSelector_el el_id el_name el_aria_label
       el_placeholder el_className el_tagName el_parentElement el_index].
  set (tail := match parent with
               | Some p => _
               | None => _
               end).
  set (by_class := match cl with
                   | ClassString _ => _
                   | ClassAnimated => _
                   end).
  assert (tail = Ok (Some sel) →
    sel = toLowerCase tg
    ∨ ∃ parent' p, parent = Some parent'
        ∧ getUniqueSelector_el querySelectorAll CSS_escape toLowerCase split_spaces parent'
          = Ok (Some p)
        ∧ sel = child_selector p (toLowerCase tg) ix) as Htail.
  { unfold tail. destruct parent as [parent'|]; [|intros [= <-]; by left].
    destruct (getUniqueSelector_el _ _ _ _ parent') as [[p|]|e] eqn:Hp;
      cbn [mbind result_bind truthy]; [|intros [= <-]; by left|done].
    destruct p as [|c p]; [intros [= <-]; by left|].
    intros [= <-]. right. exists parent', (String c p).
    split_and!; [reflexivity|exact Hp|reflexivity]. }
  assert (by_class = Ok (Some sel) →
          querySelectorAll sel = Some 1 ∨ tail = Ok (Some sel)) as Hclass.
  { unfold by_class. destruct cl as [[|c cl]|]; [by right| |done].
    destruct (class_part CSS_escape split_spaces (String c cl)) as [|c' cls]; [by right|].
    unfold unique. destruct (querySelectorAll _) as [m|] eqn:Hq; [|done].
    cbn [mbind result_bind]. case_bool_decide as Hm; [|by right].
    intros [= <-]. left. by rewrite Hq, Hm. }
  intros Hsel.
  assert (by_attribute querySelectorAll "name" n
            (by_attribute querySelectorAll "aria-label" a
               (by_attribute querySelectorAll "placeholder" ph by_class))
          = Ok (Some sel) → querySelectorAll sel = Some 1 ∨ tail = Ok (Some sel))
    as Hattrs.
  { intros [?|[?|[?|H]%by_attribute_Ok]%by_attribute_Ok]%by_attribute_Ok;
      [by left..|by apply Hclass]. }
  assert (querySelectorAll sel = Some 1 ∨ tail = Ok (Some sel)) as [?|Ht].
  { destruct i as [|c i]; [by apply Hattrs|]. revert Hsel.
    unfold unique.
    destruct (querySelectorAll ("#" +:+ CSS_escape (String c i))) as [m|] eqn:Hq;
      [|done].
    cbn [mbind result_bind]. case_bool_decide as Hm; [|by apply Hattrs].
    intros [= <-]. left. by rewrite Hq, Hm. }
  - by left.
  - right. by apply Htail.
Qed.

Lemma selector_unique_or_structural_example :
  let span := Element "" None None None "" "span"
                (Some (Element "root" None None None "" "div" None 0)) 1 in
  let qsa := λ sel : string, Some (if decide (sel = "#root") then 1 else 2) in
  getUniqueSelector qsa id id ascii_split_spaces (Some span) = Ok (Some "#root > span:nth-child(2)")
  ∧ "#root > span:nth-child(2)" = child_selector "#root" "span" 1.
Proof.
  intros span qsa.
  assert (getUniqueSelector qsa id id ascii_split_spaces (Some span)
          = Ok (Some "#root > span:nth-child(2)")) as H by (by vm_compute).
  split; [exact H|].
  destruct (selector_unique_or_structural qsa id id ascii_split_spaces span _ H)
    as [Hu|[Ht|(parent & p & Hp & Hs & Hsel)]].
  - vm_compute in Hu. discriminate Hu.
  - vm_compute in Ht. discriminate Ht.
  - reflexivity.
Defined.

(** X10. When the id rule does not apply, a non-empty name whose attribute
    selector matches once gives the [[name="..."]] selector, whatever the
    aria-label, placeholder, classes and position of the element are. *)
Theorem name_selector_second
    (querySelectorAll : string → option nat) (CSS_escape toLowerCase : string → string)
    (split_spaces : string → list string)
    (el : element) (name : string) :
  id_rule_fails querySelectorAll CSS_escape el →
  el_name el = Some name → name ≠ EmptyString →
  querySelectorAll (name_selector name) = Some 1 →
  getUniqueSelector querySelectorAll CSS_escape toLowerCase split_spaces (Some el)
  = Ok (Some (name_selector name)).
Proof.
  intros Hid Hname Hne Huniq. destruct el as [i n a ph cl tg parent ix].
  unfold id_rule_fails in Hid. cbn [el_id el_name] in *. subst n.
  cbn [getUniqueSelector getUniqueSelector_el el_id el_name el_aria_label
       el_placeholder el_className el_tagName el_parentElement el_index].
  assert (∀ o, by_attribute querySelectorAll "name" (Some name) o
               = Ok (Some (name_selector name))) as Hrule.
  { intros o. unfold by_attribute, unique. destruct name as [|c name]; [done|].
    cbn [truthy]. fold (name_selector (String c name)). by rewrite Huniq. }
  destruct Hid as [->|(m & Hq & Hm)]; [apply Hrule|].
  destruct i as [|c i]; [apply Hrule|].
  unfold unique. rewrite Hq. cbn [mbind result_bind].
  rewrite bool_decide_eq_false_2 by done. apply Hrule.
Qed.

Lemma name_selector_second_example :
  let qsa := λ sel : string, Some (if decide (sel = "#q") then 2 else 1) in
  id_rule_fails qsa id example_element
  ∧ el_name example_element = Some "query"
  ∧ qsa (name_selector "query") = Some 1
  ∧ getUniqueSelector qsa id id ascii_split_spaces (Some example_element)
    = Ok (Some (name_selector "query")).
Proof.
  intros qsa.
  assert (id_rule_fails qsa id example_element) as Hid.
  { right. exists 2. split; [reflexivity|lia]. }
  split_and!; [exact Hid|reflexivity|reflexivity|].
  apply (name_selector_second qsa id id ascii_split_spaces example_element "query" Hid eq_refl);
    [done|reflexivity].
Defined.

(** X11. The name is put into its selector unescaped and nothing catches
    what [querySelectorAll] throws: when the id rule does not apply and the
    selector built from a non-empty name is malformed, synthesis raises the
    [SyntaxError] instead of going on to the later rules. *)
Theorem name_selector_throws
    (querySelectorAll : string → option nat) (CSS_escape toLowerCase : string → string)
    (split_spaces : string → list string)
    (el : element) (name : string) :
  id_rule_fails querySelectorAll CSS_escape el →
  el_name el = Some name → name ≠ EmptyString →
  querySelectorAll (name_selector name) = None →
  getUniqueSelector querySelectorAll CSS_escape toLowerCase split_spaces (Some el)
  = Raise SyntaxError.
Proof.
  intros Hid Hname Hne Hthrow. destruct el as [i n a ph cl tg parent ix].
  unfold id_rule_fails in Hid. cbn [el_id el_name] in *. subst n.
  cbn [getUniqueSelector getUniqueSelector_el el_id el_name el_aria_label
       el_placeholder el_className el_tagName el_parentElement el_index].
  assert (∀ o, by_attribute querySelectorAll "name" (Some name) o
               = Raise SyntaxError) as Hrule.
  { intros o. unfold by_attribute, unique. destruct name as [|c name]; [done|].
    cbn [truthy]. fold (name_selector (String c name)). by rewrite Hthrow. }
  destruct Hid as [->|(m & Hq & Hm)]; [apply Hrule|].
  destruct i as [|c i]; [apply Hrule|].
  unfold unique. rewrite Hq. cbn [mbind result_bind].
  rewrite bool_decide_eq_false_2 by done. apply Hrule.
Qed.

Lemma name_selector_throws_example :
  let quoted := Element "" (Some ("a" +:+ dquote +:+ "b")) None None "" "INPUT" None 0 in
  let qsa := λ sel : string,
    if decide (sel = name_selector ("a" +:+ dquote +:+ "b")) then None else Some 1 in
  id_rule_fails qsa id quoted
  ∧ qsa (name_selector ("a" +:+ dquote +:+ "b")) = None
  ∧ getUniqueSelector qsa id id ascii_split_spaces (Some quoted) = Raise SyntaxError.
Proof.
  intros quoted qsa.
  assert (id_rule_fails qsa id quoted) as Hid by (by left).
  split_and!; [exact Hid|reflexivity|].
  apply (name_selector_throws qsa id id ascii_split_spaces quoted ("a" +:+ dquote +:+ "b") Hid eq_refl);
    [done|reflexivity].
Defined.

(** ** The store beyond the clean cases *)

(** X12. Only empty and unparsable files are reinitialized.  A file whose
    content parses to a document without a recipes list (a JSON array, an
    object without [recipes], a [recipes] that is no list) makes the save
    raise [TypeError], [KeyError] or [AttributeError] before anything is
    written. *)
Theorem save_recipe_non_store
    (strip : string → string) (json_loads : string → result json)
    (json_dump : json → string) (write_error : option exn)
    (text : string) (doc recipe : json) :
  strip text ≠ EmptyString →
  json_loads (strip text) = Ok doc →
  store_recipes doc = None →
  ∃ e, _save_recipe strip json_loads json_dump write_error (Content text) recipe
       = Raise e
       ∧ (e = TypeError ∨ e = KeyError "recipes" ∨ e = AttributeError).
Proof.
  intros Hne Hload Hnone.
  assert (read_store strip json_loads (Content text) = Ok doc) as Hread.
  { cbn. destruct (strip text); [done|]. by rewrite Hload. }
  unfold _save_recipe, saved_store. rewrite Hread. cbn [mbind result_bind].
  destruct doc as [| | | | |fields]; try (eexists; split; [done|by left]).
  cbn in *. destruct (obj_get fields "recipes") as [[| | | |items|]|];
    try done; eexists; (split; [done|]); auto.
Qed.

Lemma save_recipe_non_store_example :
  ascii_strip "[]" ≠ EmptyString
  ∧ store_recipes (JArr []) = None
  ∧ _save_recipe ascii_strip (λ _, Ok (JArr [])) (λ _, "{}") None (Content "[]")
      (JObj [])
    = Raise TypeError.
Proof.
  assert (ascii_strip "[]" ≠ EmptyString) as Hne by done.
  destruct (save_recipe_non_store ascii_strip (λ _, Ok (JArr [])) (λ _, "{}") None
              "[]" (JArr []) (JObj []) Hne eq_refl eq_refl) as (e & He & _).
  split_and!; [exact Hne|reflexivity|reflexivity].
Defined.

(** X13. Two saves in a row append two recipes: when the document written
    by the first save is read back as it was written, the second save writes
    the recipes read at the first save, then the first recipe, then the
    second. *)
Theorem save_recipe_twice
    (strip : string → string) (json_loads : string → result json)
    (json_dump : json → string)
    (f : file) (doc0 : json) (old : list json) (r1 r2 doc1 : json) :
  read_store strip json_loads f = Ok doc0 →
  store_recipes doc0 = Some old →
  saved_store strip json_loads f r1 = Ok doc1 →
  strip (json_dump doc1) ≠ EmptyString →
  json_loads (strip (json_dump doc1)) = Ok doc1 →
  ∃ doc2,
    (f1 ← _save_recipe strip json_loads json_dump None f r1;
     _save_recipe strip json_loads json_dump None f1 r2)
    = Ok (Content (json_dump doc2))
    ∧ store_recipes doc2 = Some (old ++ [r1; r2]).
Proof.
  intros Hread0 Hold Hsave Hne Hload.
  destruct (append_recipe_store _ _ r1 Hold) as (doc1' & Happ & Hrec & _).
  unfold saved_store in Hsave. rewrite Hread0 in Hsave.
  cbn [mbind result_bind] in Hsave. rewrite Happ in Hsave. injection Hsave as ->.
  assert (read_store strip json_loads (Content (json_dump doc1)) = Ok doc1) as Hread.
  { cbn. destruct (strip (json_dump doc1)); [done|]. by rewrite Hload. }
  destruct (append_recipe_store _ _ r2 Hrec) as (doc2 & Happ2 & Hrec2 & _).
  exists doc2. unfold _save_recipe, saved_store. rewrite Hread0.
  cbn [mbind result_bind mret result_ret]. rewrite Happ.
  cbn [mbind result_bind mret result_ret]. rewrite Hread.
  cbn [mbind result_bind mret result_ret]. rewrite Happ2. split; [done|].
  by rewrite Hrec2, <-app_assoc.
Qed.

Lemma save_recipe_twice_example :
  let loads := λ _ : string, Ok (JObj [("recipes", JArr [JStr "first"])]) in
  let dump := λ _ : json, "{...}" in
  (f1 ← _save_recipe ascii_strip loads dump None Absent (JStr "first");
   _save_recipe ascii_strip loads dump None f1 (JStr "second"))
  = Ok (Content "{...}")
  ∧ ∃ doc2, store_recipes doc2 = Some [JStr "first"; JStr "second"].
Proof.
  intros loads dump.
  destruct (save_recipe_twice ascii_strip loads dump Absent empty_store []
              (JStr "first") (JStr "second")
              (JObj [("recipes", JArr [JStr "first"])]))
    as (doc2 & Hsave & Hrec); [reflexivity|reflexivity|reflexivity|done|reflexivity|].
  split; [reflexivity|]. by exists doc2.
Defined.

(** ** Replay: skipped steps, the order of the calls, malformed steps *)

(** X14. A step whose action the runner does not know, such as the prompt
    steps that the recorder writes, is logged as unknown and skipped: no
    driver call is made for it and the run goes on with the next step on the
    same page. *)
Theorem unknown_action_skipped {page : Type}
    (drive : call → page → page * option exn) (inputs : gmap pyval pyval)
    (total i : nat) (s : step) (rest : list step) (pg : page) (action : pyval) :
  s !! "action" = Some action → ¬ known_action action →
  run_steps drive inputs total i (s :: rest) pg
  = let '(tr, pg', r) := run_steps drive inputs total (S i) rest pg in
    ([LogStep (i + 1) total action; LogUnknown action] ++ tr, pg', r).
Proof.
  intros Ha Hunknown. cbn [run_steps]. unfold run_step. rewrite Ha.
  unfold known_action in Hunknown.
  rewrite !decide_False by tauto. done.
Qed.

Lemma unknown_action_skipped_example :
  let prompt := make_step "t9" "prompt" (event_data (PromptCommand "Enter the code")) in
  prompt !! "action" = Some (PStr "prompt")
  ∧ ¬ known_action (PStr "prompt")
  ∧ run_steps steady_drive ∅ 1 0 [prompt] ()
    = ([LogStep 1 1 (PStr "prompt"); LogUnknown (PStr "prompt")], (), None).
Proof.
  intros prompt.
  assert (prompt !! "action" = Some (PStr "prompt")) as Ha by reflexivity.
  assert (¬ known_action (PStr "prompt")) as Hu.
  { intros [H|[H|[H|H]]]; discriminate H. }
  split_and!; [exact Ha|exact Hu|].
  exact (unknown_action_skipped steady_drive ∅ 1 0 prompt [] () _ Ha Hu).
Defined.

Section ReplayCalls.
Context {page : Type}.
Variable drive : call → page → page * option exn.
Variable inputs : gmap pyval pyval.

Lemma driver_calls_app tr1 tr2 :
  driver_calls (tr1 ++ tr2) = driver_calls tr1 ++ driver_calls tr2.
Proof. apply omap_app. Qed.

(** The calls of one step: the call of the step if it makes one, nothing
    otherwise; a step that raises without a failed call makes none. *)
Lemma run_step_calls total i s pg :
  driver_calls (run_step drive inputs total i s pg).1.1
  = option_list (step_call inputs s)
  ∨ (driver_calls (run_step drive inputs total i s pg).1.1 = []
     ∧ is_Some (run_step drive inputs total i s pg).2).
Proof.
  unfold run_step, step_call, driver_call.
  destruct (s !! "action") as [action|]; [|by left].
  cbn [mbind option_bind]. repeat case_decide.
  - destruct (s !! "url"); [|right; by eauto].
    left. by destruct (drive _ pg).
  - destruct (s !! "selector"); [|right; by eauto].
    left. by destruct (drive _ pg).
  - destruct (s !! "selector"); [|right; by eauto].
    destruct (s !! "value"); [|right; by eauto].
    left. by destruct (drive _ pg).
  - destruct (wait_seconds s); [by left|right; by eauto].
  - by left.
Qed.

Lemma run_steps_calls total l : ∀ i pg,
  driver_calls (run_steps drive inputs total i l pg).1.1
    `prefix_of` omap (step_call inputs) l
  ∧ ((run_steps drive inputs total i l pg).2 = None →
     driver_calls (run_steps drive inputs total i l pg).1.1
     = omap (step_call inputs) l).
Proof.
  induction l as [|s l IH]; intros i pg; [done|]. cbn [run_steps].
  pose proof (run_step_calls total i s pg) as Hs.
  destruct (run_step drive inputs total i s pg) as [[tr pg'] [e|]];
    cbn [fst snd] in *.
  - split; [|done]. destruct Hs as [->|[-> _]]; [|apply prefix_nil].
    cbn [omap list_omap]. destruct (step_call inputs s) as [c|]; cbn;
      [|apply prefix_nil].
    apply prefix_cons, prefix_nil.
  - destruct Hs as [Hs|[_ [? ?]]]; [|done].
    specialize (IH (S i) pg').
    destruct (run_steps drive inputs total (S i) l pg') as [[tr' pg''] r].
    cbn [fst snd] in *. rewrite driver_calls_app, Hs.
    destruct IH as [IH1 IH2]. cbn [omap list_omap].
    destruct (step_call inputs s) as [c|]; cbn [option_list app].
    + split; [by apply prefix_cons|]. intros Hr. by rewrite IH2.
    + split; [done|]. intros Hr. by rewrite IH2.
Qed.

Lemma run_step_unfinished total i s pg :
  LogFinished ∉ (run_step drive inputs total i s pg).1.1.
Proof.
  unfold run_step, driver_call.
  destruct (s !! "action") as [action|]; [|apply not_elem_of_nil].
  repeat case_decide;
    repeat match goal with
    | |- context [match ?x with _ => _ end] => destruct x
    end; cbn [fst];
    rewrite ?elem_of_app, ?elem_of_cons, ?elem_of_nil; intuition discriminate.
Qed.

Lemma run_steps_unfinished total l : ∀ i pg,
  LogFinished ∉ (run_steps drive inputs total i l pg).1.1.
Proof.
  induction l as [|s l IH]; intros i pg; [apply not_elem_of_nil|].
  cbn [run_steps].
  pose proof (run_step_unfinished total i s pg) as Hs.
  destruct (run_step drive inputs total i s pg) as [[tr pg'] [e|]]; [done|].
  specialize (IH (S i) pg').
  destruct (run_steps drive inputs total (S i) l pg') as [[tr' pg''] r].
  cbn [fst] in *. rewrite elem_of_app. tauto.
Qed.

End ReplayCalls.

Lemma run_recipe_calls {page : Type}
    (drive : call → page → page * option exn) (inputs : gmap pyval pyval)
    (l : list step) (pg : page) :
  driver_calls (run_recipe drive inputs l pg) `prefix_of` omap (step_call inputs) l
  ∧ (LogFinished ∈ run_recipe drive inputs l pg →
     driver_calls (run_recipe drive inputs l pg) = omap (step_call inputs) l).
Proof.
  unfold run_recipe.
  pose proof (run_steps_calls drive inputs (length l) l 0 pg) as [Hpre Heq].
  pose proof (run_steps_unfinished drive inputs (length l) l 0 pg) as Hunf.
  destruct (run_steps drive inputs (length l) 0 l pg) as [[tr pg'] r].
  cbn [fst snd] in *. rewrite !driver_calls_app.
  destruct r as [e|]; cbn [driver_calls omap list_omap app];
    rewrite app_nil_r.
  - split; [done|]. intros Hin. exfalso.
    apply elem_of_app in Hin as [Hin|Hin]; [done|].
    repeat (apply elem_of_cons in Hin as [Hin|Hin]; [discriminate Hin|]).
    by apply elem_of_nil in Hin.
  - split; [done|]. intros _. by apply Heq.
Qed.

(** X15. A replay makes the driver calls of its steps in the order of the
    steps, one call per navigate, click and fill step and none for the
    others: the calls of a run are an initial part of that list, and all of
    it when the run ends with the success line. *)
Theorem replay_calls_in_order {page : Type}
    (drive : call → page → page * option exn) (inputs : gmap pyval pyval)
    (l : list step) (pg : page) :
  driver_calls (run_recipe drive inputs l pg) `prefix_of` omap (step_call inputs) l
  ∧ (LogFinished ∈ run_recipe drive inputs l pg →
     driver_calls (run_recipe drive inputs l pg) = omap (step_call inputs) l).
Proof. apply run_recipe_calls. Qed.

(** X16. The recorded value of a fill step is read before the override map
    is consulted: a fill step without a [value] raises [KeyError] and makes
    no driver call, even when the override map has an entry for its
    selector. *)
Theorem fill_without_value_raises {page : Type}
    (drive : call → page → page * option exn) (inputs : gmap pyval pyval)
    (total i : nat) (s : step) (pg : page) (selector : pyval) :
  s !! "action" = Some (PStr "fill") →
  s !! "selector" = Some selector →
  s !! "value" = None →
  run_step drive inputs total i s pg
    = ([LogStep (i + 1) total (PStr "fill")], pg, Some (KeyError "value"))
  ∧ run_recipe drive inputs [s] pg
    = [LogStep 1 1 (PStr "fill"); LogError (KeyError "value"); Sleep 3; Close].
Proof.
  intros Ha Hs Hv.
  assert (∀ t j, run_step drive inputs t j s pg
            = ([LogStep (j + 1) t (PStr "fill")], pg, Some (KeyError "value")))
    as Hrun.
  { intros t j. unfold run_step. rewrite Ha, Hs, Hv.
    by rewrite decide_False, decide_False, decide_True by done. }
  split; [apply Hrun|]. unfold run_recipe. cbn [run_steps length].
  by rewrite Hrun.
Qed.

Lemma fill_without_value_raises_example :
  let s : step := <["action" := PStr "fill"]> (<["selector" := PStr "#q"]> ∅) in
  s !! "value" = None
  ∧ run_recipe steady_drive {[PStr "#q" := PStr "typed"]} [s] ()
    = [LogStep 1 1 (PStr "fill"); LogError (KeyError "value"); Sleep 3; Close].
Proof.
  intros s.
  assert (s !! "value" = None) as Hv by reflexivity.
  split; [exact Hv|].
  exact (proj2 (fill_without_value_raises steady_drive
                  {[PStr "#q" := PStr "typed"]} 1 0 s () (PStr "#q")
                  eq_refl eq_refl Hv)).
Defined.

(** ** From the recorder to the runner *)

Section RecordingReplays.
Context {page : Type}.
Variable drive : call → page → page * option exn.
Variable inputs : gmap pyval pyval.
Hypothesis drive_ok : ∀ c pg, (drive c pg).2 = None.

Lemma driver_call_ok log c pg : (driver_call drive log c pg).2 = None.
Proof.
  unfold driver_call. pose proof (drive_ok c pg) as Hc.
  by destruct (drive c pg) as [pg' err].
Qed.

Lemma run_step_event_ok total i now ev pg :
  (run_step drive inputs total i
     (make_step now (event_action ev) (event_data ev)) pg).2 = None.
Proof.
  unfold run_step. rewrite make_step_action by apply event_data_action.
  destruct ev as [sel text|sel value|url|message|url]; cbn [event_action].
  - rewrite decide_False, decide_True by done.
    erewrite make_step_data; [apply driver_call_ok|].
    cbn. by rewrite lookup_insert_eq.
  - rewrite decide_False, decide_False, decide_True by done.
    erewrite (make_step_data _ _ _ "selector");
      [|cbn; by rewrite lookup_insert_eq].
    erewrite (make_step_data _ _ _ "value"); [apply driver_call_ok|].
    cbn. by rewrite lookup_insert_ne, lookup_insert_eq.
  - rewrite decide_True by done.
    erewrite make_step_data; [apply driver_call_ok|].
    cbn. by rewrite lookup_insert_eq.
  - by rewrite !decide_False by done.
  - rewrite decide_True by done.
    erewrite make_step_data; [apply driver_call_ok|].
    cbn. by rewrite lookup_insert_eq.
Qed.

Lemma run_steps_all_ok total l : ∀ i pg,
  (∀ s j p, s ∈ l → (run_step drive inputs total j s p).2 = None) →
  (run_steps drive inputs total i l pg).2 = None.
Proof.
  induction l as [|s l IH]; intros i pg Hl; [done|]. cbn [run_steps].
  pose proof (Hl s i pg (list_elem_of_here _ _)) as Hs.
  destruct (run_step drive inputs total i s pg) as [[tr pg'] [e|]]; [done|].
  assert ((run_steps drive inputs total (S i) l pg').2 = None) as Hr.
  { apply IH. intros s' j p Hin. apply Hl. by right. }
  by destruct (run_steps drive inputs total (S i) l pg') as [[tr' pg''] r].
Qed.

Lemma recorded_steps_from_events console_print callback_survives evs out :
  recorded_steps console_print callback_survives evs = Ok out →
  ∀ s, s ∈ out → s ∈ raw_steps evs.
Proof.
  intros Hraw%recorded_steps_collapse s Hs.
  apply collapse_fills_Ok in Hraw as (c & d & Hl & ->).
  apply collapse_loop_submseteq in Hl. cbn in Hl.
  by eapply elem_of_submseteq.
Qed.

Lemma recording_run_ok console_print callback_survives evs out pg :
  recorded_steps console_print callback_survives evs = Ok out →
  (run_steps drive inputs (length out) 0 out pg).2 = None.
Proof.
  intros Hout. apply run_steps_all_ok. intros s j p Hs.
  apply (recorded_steps_from_events _ _ _ _ Hout) in Hs.
  apply list_elem_of_fmap in Hs as ([now ev] & -> & _).
  apply run_step_event_ok.
Qed.

End RecordingReplays.

(** X17. What the recorder saves, the runner can run: on a driver whose
    calls do not fail, the replay of the steps recorded from any event
    stream raises nothing, ends with the success line and makes the driver
    calls of all the recorded steps in order. *)
Theorem recording_replays {page : Type}
    (drive : call → page → page * option exn) (inputs : gmap pyval pyval)
    (console_print : console_line → option exn)
    (callback_survives : string * event → exn → bool)
    (evs : stream) (out : list step) (pg : page) :
  (∀ c p, (drive c p).2 = None) →
  recorded_steps console_print callback_survives evs = Ok out →
  LogFinished ∈ run_recipe drive inputs out pg
  ∧ driver_calls (run_recipe drive inputs out pg) = omap (step_call inputs) out.
Proof.
  intros Hdrive Hout.
  assert (LogFinished ∈ run_recipe drive inputs out pg) as Hfin.
  { unfold run_recipe.
    pose proof (recording_run_ok drive inputs Hdrive _ _ evs out pg Hout) as Hok.
    destruct (run_steps drive inputs (length out) 0 out pg) as [[tr pg'] r].
    cbn [snd] in Hok. subst r. apply elem_of_app. right. left. }
  split; [done|].
  by apply (run_recipe_calls drive inputs out pg).
Qed.

Lemma recording_replays_example :
  (∀ c p, (steady_drive c p).2 = None)
  ∧ recorded_steps quiet_console fatal_callbacks example_stream = Ok example_recipe
  ∧ driver_calls (run_recipe steady_drive ∅ example_recipe ())
    = [Goto (PStr "https://example.test"); Fill (PStr "#q") (PStr "abc");
       Click (PStr "#submit")].
Proof.
  assert (∀ c p, (steady_drive c p).2 = None) as Hd by done.
  assert (recorded_steps quiet_console fatal_callbacks example_stream
          = Ok example_recipe) as Hr
    by (by vm_compute).
  split_and!; [exact Hd|exact Hr|].
  rewrite (proj2 (recording_replays steady_drive ∅ quiet_console fatal_callbacks
                    example_stream example_recipe () Hd Hr)).
  reflexivity.
Defined.

(** ** The input dialog *)

Lemma list_to_map_dict_get {V : Type} (g : V → pyval) (d : odict V) k :
  (list_to_map ((λ kv, (kv.1, g kv.2)) <$> d) : gmap pyval pyval) !! k
  = g <$> dict_get d k.
Proof.
  induction d as [|[k0 v0] d IH]; [apply lookup_empty|].
  rewrite fmap_cons, list_to_map_cons. cbn [fst snd dict_get].
  destruct (decide (k0 = k)) as [->|Hne].
  - by rewrite lookup_insert_eq.
  - by rewrite lookup_insert_ne.
Qed.

Section DialogProofs.
Variable entry_text : pyval → string.
Variable edit : nat → string → string.

Lemma dialog_row_eq entries i s :
  dialog_row entry_text edit (entries, i) s
  = match s !! "selector" with
    | Some k =>
        Ok (dict_set entries k
              (edit i (entry_text (default (PStr "") (s !! "value")))), S i)
    | None => Raise (KeyError "selector")
    end.
Proof. unfold dialog_row, getitem. by destruct (s !! "selector"). Qed.

Lemma dialog_rows_count l : ∀ entries i st,
  for_each (dialog_row entry_text edit) l (entries, i) = Ok st → st.2 = i + length l.
Proof.
  induction l as [|s l IH]; intros entries i st.
  - intros [= <-]. cbn. lia.
  - cbn [for_each]. rewrite dialog_row_eq.
    destruct (s !! "selector") as [k|]; [|done].
    cbn [mbind result_bind]. intros ->%IH. cbn. lia.
Qed.

Lemma dialog_rows_other l k : ∀ entries i st,
  Forall (λ s, s !! "selector" ≠ Some k) l →
  for_each (dialog_row entry_text edit) l (entries, i) = Ok st → dict_get st.1 k = dict_get entries k.
Proof.
  induction l as [|s l IH]; intros entries i st Hl.
  - by intros [= <-].
  - apply Forall_cons in Hl as [Hs Hl]. cbn [for_each].
    rewrite dialog_row_eq.
    destruct (s !! "selector") as [k'|]; [|done].
    cbn [mbind result_bind]. intros ->%IH; [|done].
    rewrite dict_get_set, decide_False; [done|]. congruence.
Qed.

Lemma ask_for_inputs_lookup l1 l2 s k inputs :
  s !! "selector" = Some k →
  Forall (λ s', s' !! "selector" ≠ Some k) l2 →
  ask_for_inputs entry_text edit (l1 ++ s :: l2) true = Ok inputs →
  inputs !! k
  = Some (PStr (edit (length l1)
                  (entry_text (default (PStr "") (s !! "value"))))).
Proof.
  intros Hs Hl2. unfold ask_for_inputs. rewrite for_each_app.
  destruct (for_each (dialog_row entry_text edit) l1 ([], 0)) as [[e1 i1]|e] eqn:H1; [|done].
  apply dialog_rows_count in H1 as Hi1. cbn in Hi1. subst i1.
  cbn [mbind result_bind for_each]. rewrite dialog_row_eq, Hs.
  cbn [mbind result_bind].
  destruct (for_each (dialog_row entry_text edit) l2 _) as [[e2 i2]|e] eqn:H2; [|done].
  cbn [mbind result_bind mret result_ret fst]. intros [= <-].
  apply (dialog_rows_other _ k) in H2; [|done]. cbn [fst] in H2.
  rewrite list_to_map_dict_get, H2, dict_get_set, decide_True by done.
  done.
Qed.

End DialogProofs.

(** X18. In the input dialog the last row of a selector decides: the map
    returned after Run holds for a selector the text of the row of the last
    fill step on that selector, which starts as the recorded value of that
    step (the empty string when it has none); what the rows of earlier fill
    steps on the same selector hold is not read. *)
Theorem dialog_last_row_wins
    (entry_text : pyval → string) (edit : nat → string → string)
    (l1 l2 : list step) (s : step) (k : pyval) (inputs : gmap pyval pyval) :
  s !! "selector" = Some k →
  Forall (λ s', s' !! "selector" ≠ Some k) l2 →
  ask_for_inputs entry_text edit (l1 ++ s :: l2) true = Ok inputs →
  inputs !! k
  = Some (PStr (edit (length l1)
                  (entry_text (default (PStr "") (s !! "value"))))).
Proof. apply ask_for_inputs_lookup. Qed.

Lemma dialog_last_row_wins_example :
  let text := λ v, match v with PStr t => t | _ => "" end in
  let first_row_only := λ (i : nat) (t : string), if decide (i = 0) then "edited" else t in
  let l1 := [fill_step "t1" "#q" "a"] in
  let s := fill_step "t3" "#q" "b" in
  ask_for_inputs text first_row_only (l1 ++ [s]) true
  = Ok {[PStr "#q" := PStr "b"]}
  ∧ ({[PStr "#q" := PStr "b"]} : gmap pyval pyval) !! PStr "#q" = Some (PStr "b").
Proof.
  intros text first_row_only l1 s.
  assert (ask_for_inputs text first_row_only (l1 ++ [s]) true
          = Ok {[PStr "#q" := PStr "b"]}) as H by (by vm_compute).
  split; [exact H|].
  exact (dialog_last_row_wins text first_row_only l1 [] s (PStr "#q") _
           eq_refl (Forall_nil_2 _) H).
Defined.

Lemma keep_fill_eq acc s :
  keep_fill acc s
  = match s !! "action" with
    | Some _ => Ok (if is_fill s then acc ++ [s] else acc)
    | None => Raise (KeyError "action")
    end.
Proof.
  unfold keep_fill, getitem, is_fill.
  destruct (s !! "action") as [a|]; [|done]. cbn [mbind result_bind].
  destruct (decide (a = PStr "fill")) as [->|Hne].
  - by rewrite bool_decide_eq_true_2.
  - rewrite bool_decide_eq_false_2; [done|congruence].
Qed.

Lemma select_fill_steps_Ok l : ∀ acc fs,
  for_each keep_fill l acc = Ok fs → fs = acc ++ List.filter is_fill l.
Proof.
  induction l as [|s l IH]; intros acc fs.
  - intros [= <-]. by rewrite app_nil_r.
  - cbn [for_each List.filter]. rewrite keep_fill_eq.
    destruct (s !! "action") as [a|]; [|done]. cbn [mbind result_bind].
    intros ->%IH. destruct (is_fill s); [|done]. by rewrite <-app_assoc.
Qed.

Section UneditedDialog.
Context {page : Type}.
Variable drive : call → page → page * option exn.
Variable entry_text : pyval → string.
Hypothesis entry_text_str : ∀ t, entry_text (PStr t) = t.

Lemma run_step_inputs_ext (in1 in2 : gmap pyval pyval) total i s pg :
  (∀ k v, s !! "action" = Some (PStr "fill") → s !! "selector" = Some k →
          s !! "value" = Some v →
          default v (in1 !! k) = default v (in2 !! k)) →
  run_step drive in1 total i s pg = run_step drive in2 total i s pg.
Proof.
  intros Hext. unfold run_step.
  destruct (s !! "action") as [a|]; [|done].
  repeat case_decide; try done. subst a.
  destruct (s !! "selector") as [k|]; [|done].
  destruct (s !! "value") as [v|]; [|done].
  by rewrite (Hext k v).
Qed.

Lemma run_steps_inputs_ext (in1 in2 : gmap pyval pyval) total l : ∀ i pg,
  (∀ s k v, s ∈ l → s !! "action" = Some (PStr "fill") →
            s !! "selector" = Some k → s !! "value" = Some v →
            default v (in1 !! k) = default v (in2 !! k)) →
  run_steps drive in1 total i l pg = run_steps drive in2 total i l pg.
Proof.
  induction l as [|s l IH]; intros i pg Hext; [done|]. cbn [run_steps].
  rewrite (run_step_inputs_ext in1 in2).
  - destruct (run_step drive in2 total i s pg) as [[tr pg'] [e|]]; [done|].
    rewrite IH; [done|]. intros s' k v Hin. apply Hext. by right.
  - intros k v. apply Hext. left.
Qed.

Lemma ask_unedited_lookup fs inputs s k :
  ask_for_inputs entry_text (λ _ t, t) fs true = Ok inputs →
  NoDup (omap (λ s', s' !! "selector") fs) →
  s ∈ fs → s !! "selector" = Some k →
  inputs !! k = Some (PStr (entry_text (default (PStr "") (s !! "value")))).
Proof.
  intros Hask Hnd Hin Hs.
  apply list_elem_of_split in Hin as (l1 & l2 & ->).
  apply (ask_for_inputs_lookup entry_text (λ _ t, t) l1 l2 s k inputs Hs);
    [|done].
  rewrite omap_app in Hnd. apply NoDup_app in Hnd as (_ & _ & Hnd).
  cbn [omap list_omap] in Hnd. rewrite Hs in Hnd.
  apply NoDup_cons in Hnd as [Hk _].
  apply Forall_forall. intros s' Hs' Hsel. apply Hk.
  apply list_elem_of_omap. by exists s'.
Qed.

Lemma filter_fill_selectors l :
  Forall (λ s, is_Some (s !! "selector")) (List.filter is_fill l) →
  omap (λ s, s !! "selector") (List.filter is_fill l) = fill_selectors l.
Proof.
  unfold fill_selectors. induction l as [|s l IH]; [done|].
  cbn [List.filter omap list_omap]. destruct (is_fill s) eqn:Hf.
  - apply bool_decide_eq_true in Hf. intros [[k Hk] Hl]%Forall_cons.
    cbn [omap list_omap]. unfold fill_selector at 1.
    rewrite decide_True, Hk by done. f_equal. by apply IH.
  - apply bool_decide_eq_false in Hf. unfold fill_selector at 1.
    rewrite decide_False by done. apply IH.
Qed.

Lemma dialog_rows_selectors l : ∀ entries i st,
  for_each (dialog_row entry_text (λ _ t, t)) l (entries, i) = Ok st →
  Forall (λ s, is_Some (s !! "selector")) l.
Proof.
  induction l as [|s l IH]; intros entries i st; [done|].
  cbn [for_each]. rewrite dialog_row_eq.
  destruct (s !! "selector") as [k|] eqn:Hk; [|done].
  cbn [mbind result_bind]. intros Hl%IH. apply Forall_cons.
  split; [by rewrite Hk|done].
Qed.

Lemma collect_unedited_run steps inputs pg :
  Forall (λ s, is_fill s = true →
               ∀ v, s !! "value" = Some v → ∃ t, v = PStr t) steps →
  NoDup (fill_selectors steps) →
  collect_inputs entry_text (λ _ t, t) steps true = Ok inputs →
  run_recipe drive inputs steps pg = run_recipe drive ∅ steps pg.
Proof.
  intros Hstr Hnd. unfold collect_inputs, select_fill_steps.
  destruct (for_each _ steps []) as [fs|e] eqn:Hfs; [|done].
  apply select_fill_steps_Ok in Hfs. cbn [app] in Hfs. subst fs.
  cbn [mbind result_bind].
  destruct (List.filter is_fill steps) as [|s0 fs'] eqn:Hfs;
    [by intros [= <-]|].
  rewrite <-Hfs. clear s0 fs' Hfs. intros Hask.
  unfold run_recipe. rewrite (run_steps_inputs_ext inputs ∅); [done|].
  intros s k v Hin Ha Hs Hv. rewrite lookup_empty. cbn [default].
  assert (Forall (λ s, is_Some (s !! "selector")) (List.filter is_fill steps))
    as Hsel.
  { pose proof Hask as Hask'. unfold ask_for_inputs in Hask'.
    destruct (for_each (dialog_row entry_text (λ _ t, t))
                (List.filter is_fill steps) ([], 0)) as [st|e] eqn:Hrows;
      [|done].
    by eapply dialog_rows_selectors. }
  rewrite (ask_unedited_lookup (List.filter is_fill steps) inputs s k Hask).
  - rewrite Hv. rewrite Forall_forall in Hstr.
    destruct (Hstr s Hin) with (v := v) as [t ->]; [|done|].
    + unfold is_fill. by rewrite bool_decide_eq_true_2.
    + cbn. by rewrite entry_text_str.
  - by rewrite filter_fill_selectors.
  - apply list_elem_of_In, List.filter_In. split; [by apply list_elem_of_In|].
    unfold is_fill. by rewrite bool_decide_eq_true_2.
  - done.
Qed.

End UneditedDialog.

(** X19. Pressing Run in the input dialog without editing replays the
    recipe as it was recorded, provided that its fill steps fill pairwise
    distinct selectors and carry strings: the run is the run with an empty
    override map. *)
Theorem unedited_dialog_replays_recording {page : Type}
    (drive : call → page → page * option exn) (entry_text : pyval → string)
    (recipe_steps : list step) (inputs : gmap pyval pyval) (pg : page) :
  (∀ t, entry_text (PStr t) = t) →
  Forall (λ s, is_fill s = true →
               ∀ v, s !! "value" = Some v → ∃ t, v = PStr t) recipe_steps →
  NoDup (fill_selectors recipe_steps) →
  collect_inputs entry_text (λ _ t, t) recipe_steps true = Ok inputs →
  run_recipe drive inputs recipe_steps pg = run_recipe drive ∅ recipe_steps pg.
Proof. intros. by apply (collect_unedited_run drive entry_text). Qed.

Lemma unedited_dialog_replays_recording_example :
  let text := λ v, match v with PStr t => t | _ => "" end in
  collect_inputs text (λ _ t, t) example_recipe true
  = Ok {[PStr "#q" := PStr "abc"]}
  ∧ NoDup (fill_selectors example_recipe)
  ∧ run_recipe steady_drive {[PStr "#q" := PStr "abc"]} example_recipe ()
    = run_recipe steady_drive ∅ example_recipe ().
Proof.
  intros text.
  assert (collect_inputs text (λ _ t, t) example_recipe true
          = Ok {[PStr "#q" := PStr "abc"]}) as Hc by (by vm_compute).
  assert (NoDup (fill_selectors example_recipe)) as Hnd.
  { apply (bool_decide_unpack _). by vm_compute. }
  split_and!; [exact Hc|exact Hnd|].
  apply (unedited_dialog_replays_recording steady_drive text example_recipe);
    [done| |exact Hnd|exact Hc].
  repeat apply Forall_cons_2; [| |..|apply Forall_nil_2].
  - intros Hf. discriminate Hf.
  - intros _ v Hv. vm_compute in Hv. injection Hv as <-. by eexists.
  - intros Hf. discriminate Hf.
Defined.

(** ** The runner's recipes *)

(** X20. [__init__] calls [load_recipes] before it creates the dropdown.
    Without a [recipes.json] the constructor therefore raises
    [AttributeError]; with a store that loads, the recipes are stored, the
    assignment to the missing dropdown is caught and shown as a load
    failure, and the dropdown created afterwards still lists the names. *)
Theorem startup_before_dropdown (json_loads : string → result json) :
  init json_loads Absent = Raise AttributeError
  ∧ ∀ text data items d,
      json_loads text = Ok data →
      data_recipes data = Ok items →
      index_recipes items = Ok d →
      init json_loads (Content text)
      = Ok (Runner d (Some (recipe_names d)) (Some []), [ShowError AttributeError]).
Proof.
  split; [done|]. intros text data items d Hload Hitems Hd.
  unfold init, load_recipes, load_data. rewrite Hload.
  cbn [mbind result_bind]. rewrite Hitems. cbn [mbind result_bind].
  by rewrite Hd.
Qed.

Section RunnerProofs.
Variable json_loads : string → result json.

Lemma index_recipe_eq d r :
  index_recipe d r
  = match recipe_name r with
    | Ok name =>
        match name_key name with
        | Ok key =>
            Ok (dict_set d key
                  (match dict_get d key with
                   | Some (name0, _) => name0
                   | None => name
                   end, r))
        | Raise e => Raise e
        end
    | Raise e => Raise e
    end.
Proof.
  unfold index_recipe. destruct (recipe_name r) as [name|e]; [|done].
  cbn [mbind result_bind]. by destruct (name_key name).
Qed.

Lemma index_recipes_other l key : ∀ d0 d,
  Forall (λ r, recipe_key r ≠ Ok key) l →
  for_each index_recipe l d0 = Ok d → dict_get d key = dict_get d0 key.
Proof.
  induction l as [|r l IH]; intros d0 d Hl; [by intros [= <-]|].
  apply Forall_cons in Hl as [Hr Hl]. cbn [for_each].
  rewrite index_recipe_eq. unfold recipe_key in Hr.
  destruct (recipe_name r) as [name|e]; [|done].
  cbn [mbind result_bind] in Hr.
  destruct (name_key name) as [key'|e]; [|done].
  cbn [mbind result_bind]. intros ->%IH; [|done].
  rewrite dict_get_set, decide_False; [done|]. congruence.
Qed.

Lemma index_recipes_last l1 l2 r key d :
  recipe_key r = Ok key →
  Forall (λ r', recipe_key r' ≠ Ok key) l2 →
  index_recipes (l1 ++ r :: l2) = Ok d →
  snd <$> dict_get d key = Some r.
Proof.
  intros Hr Hl2. unfold index_recipes. rewrite for_each_app.
  destruct (for_each index_recipe l1 []) as [d1|e]; [|done].
  cbn [mbind result_bind for_each]. rewrite index_recipe_eq.
  unfold recipe_key in Hr. destruct (recipe_name r) as [name|e]; [|done].
  cbn [mbind result_bind] in Hr. rewrite Hr. cbn [mbind result_bind].
  intros ->%(index_recipes_other _ key); [|done].
  by rewrite dict_get_set, decide_True.
Qed.

Lemma index_recipes_bad l r : ∀ d0,
  r ∈ l → (∀ key, recipe_key r ≠ Ok key) →
  ∃ e, for_each index_recipe l d0 = Raise e.
Proof.
  induction l as [|r' l IH]; intros d0 Hin Hbad; [by apply elem_of_nil in Hin|].
  cbn [for_each]. rewrite index_recipe_eq. unfold recipe_key in Hbad.
  apply elem_of_cons in Hin as [->|Hin].
  - destruct (recipe_name r') as [name|e]; [|by eexists].
    cbn [mbind result_bind] in Hbad.
    destruct (name_key name) as [key|e]; [|by eexists]. by destruct (Hbad key).
  - destruct (recipe_name r') as [name|e]; [|by eexists].
    destruct (name_key name) as [key|e]; [|by eexists].
    cbn [mbind result_bind]. by apply IH.
Qed.

Lemma load_recipes_indexed text data items self :
  json_loads text = Ok data → data_recipes data = Ok items →
  load_recipes json_loads (Content text) self
  = match index_recipes items with
    | Ok d =>
        match recipe_dropdown self with
        | None => Ok (Runner d None (log_area self), [ShowError AttributeError])
        | Some _ =>
            match log_area self with
            | None =>
                Ok (Runner d (Some (recipe_names d)) None,
                    [ShowError AttributeError])
            | Some lines =>
                Ok (Runner d (Some (recipe_names d))
                      (Some (lines ++ ["Loaded " +:+ pretty (length d) +:+ " recipes"])),
                    [])
            end
        end
    | Raise e => Ok (self, [ShowError e])
    end.
Proof.
  intros Hload Hitems. unfold load_recipes, load_data. rewrite Hload.
  cbn [mbind result_bind]. rewrite Hitems. cbn [mbind result_bind].
  by destruct (index_recipes items).
Qed.

End RunnerProofs.

(** X21. Of several recipes of one name in the store the runner keeps the
    last: after a load that succeeds, the recipe found under a name is the
    last item of the store's list with that name, so a recipe saved again
    under an old name replaces the old one in the runner. *)
Theorem load_recipes_last_name_wins
    (json_loads : string → result json) (text : string) (data : json)
    (l1 l2 : list json) (r : json) (key : pyval) (d : odict (json * json))
    (self : runner) :
  json_loads text = Ok data →
  data_recipes data = Ok (l1 ++ r :: l2) →
  index_recipes (l1 ++ r :: l2) = Ok d →
  recipe_key r = Ok key →
  Forall (λ r', recipe_key r' ≠ Ok key) l2 →
  (∃ loaded, load_recipes json_loads (Content text) self = Ok loaded
             ∧ recipes loaded.1 = d)
  ∧ snd <$> dict_get d key = Some r.
Proof.
  intros Hload Hitems Hd Hr Hl2. split; [|by eapply index_recipes_last].
  rewrite (load_recipes_indexed json_loads text data _ self Hload Hitems), Hd.
  destruct (recipe_dropdown self); [destruct (log_area self)|]; by eexists.
Qed.

(** X22. One bad entry spoils the load: when an item of the store's list
    has no usable name (it is no object, has no name, or its name is a list
    or an object), [load_recipes] loads nothing, keeps the recipes and the
    dropdown as they were, and shows one error box. *)
Theorem load_recipes_all_or_nothing
    (json_loads : string → result json) (text : string) (data : json)
    (items : list json) (r : json) (self : runner) :
  json_loads text = Ok data →
  data_recipes data = Ok items →
  r ∈ items → (∀ key, recipe_key r ≠ Ok key) →
  ∃ e, load_recipes json_loads (Content text) self = Ok (self, [ShowError e]).
Proof.
  intros Hload Hitems Hin Hbad.
  rewrite (load_recipes_indexed json_loads text data _ self Hload Hitems).
  destruct (index_recipes_bad items r [] Hin Hbad) as [e He].
  unfold index_recipes. rewrite He. by eexists.
Qed.

Lemma load_recipes_last_name_wins_example :
  let old := JObj [("name", JStr "login"); ("steps", JArr [])] in
  let new := JObj [("name", JStr "login"); ("steps", JArr [JStr "more"])] in
  let data := JObj [("recipes", JArr [old; new])] in
  index_recipes [old; new] = Ok [(PStr "login", (JStr "login", new))]
  ∧ recipe_key new = Ok (PStr "login")
  ∧ snd <$> dict_get [(PStr "login", (JStr "login", new))] (PStr "login") = Some new.
Proof.
  intros old new data.
  assert (index_recipes [old; new] = Ok [(PStr "login", (JStr "login", new))])
    as Hd by reflexivity.
  split_and!; [exact Hd|reflexivity|].
  exact (proj2 (load_recipes_last_name_wins (λ _, Ok data) "{}" data [old] []
                  new (PStr "login") _ (Runner [] (Some []) (Some []))
                  eq_refl eq_refl Hd eq_refl (Forall_nil_2 _))).
Defined.

Lemma load_recipes_all_or_nothing_example :
  let good := JObj [("name", JStr "login"); ("steps", JArr [])] in
  let nameless := JObj [("steps", JArr [])] in
  let data := JObj [("recipes", JArr [good; nameless])] in
  let self := Runner [(PStr "old", (JStr "old", JObj []))] (Some [JStr "old"]) (Some []) in
  (∀ key, recipe_key nameless ≠ Ok key)
  ∧ load_recipes (λ _, Ok data) (Content "{}") self
    = Ok (self, [ShowError (KeyError "name")]).
Proof.
  intros good nameless data self.
  assert (∀ key, recipe_key nameless ≠ Ok key) as Hbad by done.
  split; [exact Hbad|].
  destruct (load_recipes_all_or_nothing (λ _, Ok data) "{}" data
              [good; nameless] nameless self eq_refl eq_refl) as [e He];
    [by right; left|exact Hbad|].
  reflexivity.
Defined.

(** ** The console loop *)

Lemma startswith_not_stop user_input :
  startswith user_input ":prompt" = true → lower user_input ≠ "stop".
Proof.
  destruct user_input as [|c s]; [done|]. cbn [startswith lower].
  intros [Hc _]%andb_true_iff. apply bool_decide_eq_true in Hc as ->.
  by intros [=].
Qed.

(** X23. A console line that starts with [:prompt] adds exactly one prompt
    step when the console prints its two lines: the pending fills are
    flushed into the steps first, then comes the prompt, whose message is
    the rest of the line stripped, or ["Enter value"] when nothing is left,
    and so is never empty.  When the console raises on the line of
    [_add_step] or on the line after it, as it does on a message that it
    takes for a closing tag, the exception leaves the loop. *)
Theorem prompt_line_adds_step
    (console_print : console_line → option exn) (strip : string → string)
    (now user_input : string) (self : recorder) :
  startswith user_input ":prompt" = true →
  ∃ message,
    message ≠ EmptyString
    ∧ (strip (slice_from 7 user_input) ≠ EmptyString →
       message = strip (slice_from 7 user_input))
    ∧ (strip (slice_from 7 user_input) = EmptyString → message = "Enter value")
    ∧ on_line console_print strip now user_input self
      = match console_print (Recorded "prompt" (<["message" := PStr message]> ∅)) with
        | Some e => Raise e
        | None =>
            match console_print (AddedPrompt message) with
            | Some e => Raise e
            | None =>
                Ok (Some (Recorder
                            (steps self ++ dict_values (_last_fill_for_selector self)
                             ++ [make_step now "prompt"
                                   (<["message" := PStr message]> ∅)])
                            []))
            end
        end.
Proof.
  intros Hp. unfold on_line.
  rewrite decide_False by by apply startswith_not_stop.
  rewrite Hp. exists (prompt_message strip user_input).
  assert (prompt_message strip user_input ≠ EmptyString
          ∧ (strip (slice_from 7 user_input) ≠ EmptyString →
             prompt_message strip user_input = strip (slice_from 7 user_input))
          ∧ (strip (slice_from 7 user_input) = EmptyString →
             prompt_message strip user_input = "Enter value")) as (H1 & H2 & H3).
  { unfold prompt_message. cbn [String.length].
    by destruct (strip (slice_from 7 user_input)). }
  split_and!; [done..|].
  rewrite add_step_other by done.
  destruct (console_print (Recorded _ _)); [done|].
  destruct (console_print (AddedPrompt _)); [done|].
  by rewrite <-app_assoc.
Qed.

(** A prompt line without message on a console that prints, and the line
    [:prompt [/b]] on one that takes [[/b]] for a closing tag. *)
Lemma prompt_line_adds_step_example :
  startswith ":prompt   " ":prompt" = true
  ∧ on_line quiet_console ascii_strip "t7" ":prompt   "
      (Recorder [] [(PStr "#q", fill_step "t3" "#q" "abc")])
    = Ok (Some (Recorder
                  [fill_step "t3" "#q" "abc";
                   make_step "t7" "prompt" (<["message" := PStr "Enter value"]> ∅)]
                  []))
  ∧ on_line strict_console ascii_strip "t7" ":prompt [/b]" recorder_init
    = Raise MarkupError.
Proof.
  assert (startswith ":prompt   " ":prompt" = true) as Hp by reflexivity.
  split_and!; [exact Hp| |reflexivity].
  destruct (prompt_line_adds_step quiet_console ascii_strip "t7" ":prompt   "
              (Recorder [] [(PStr "#q", fill_step "t3" "#q" "abc")]) Hp)
    as (message & _ & _ & Hdef & ->).
  rewrite (Hdef eq_refl). reflexivity.
Defined.
